(** * Sliding-window rate limiter for Durable Objects

    A shallow embedding of [src/index.ts]: the [RateLimiter] durable object
    ([fetch], [slidingWindow]), the [rateLimit] coordinator with its response
    cache, and the two scanning helpers [filterUntil] and [countUntil].

    Conventions of the embedding.
    - Timestamps, limits and intervals are JavaScript numbers that hold
      integers; they are modelled as [Z], on which arithmetic is exact as it
      is on JavaScript's safe integers.  The non-integer values the code can
      produce from integer inputs ([NaN] from [interval + undefined],
      [-Infinity] from [Math.max()] of no arguments) are kept in [JS.number].
    - [Date.now()] is an effect; every reading is an explicit argument in
      milliseconds.
    - Durable storage, the durable object namespace and the response cache are
      threaded explicitly: a function takes the state before and returns the
      state after. *)

From Stdlib Require Import ZArith Lia List Ascii String Sorted Permutation.
From Stdlib Require Import Decimal DecimalString DecimalPos DecimalZ.
From stdpp Require Import gmap strings list fin_maps.

Local Open Scope Z_scope.

(** ** JavaScript numbers *)

Module JS.

Inductive number : Type :=
  | NaN
  | NegInfinity
  | Int (z : Z).

(** [a + b] *)
Definition add (a b : number) : number :=
  match a, b with
  | NaN, _ | _, NaN => NaN
  | Int x, Int y => Int (x + y)
  | _, _ => NegInfinity
  end.

(** [a - b], for a finite [b] *)
Definition sub (a : number) (b : Z) : number :=
  match a with
  | NaN => NaN
  | NegInfinity => NegInfinity
  | Int x => Int (x - b)
  end.

(** [a >= b]: every comparison with [NaN] is false *)
Definition geb (a b : number) : bool :=
  match a, b with
  | NaN, _ | _, NaN => false
  | _, NegInfinity => true
  | NegInfinity, Int _ => false
  | Int x, Int y => y <=? x
  end.

(** [a < b] *)
Definition ltb (a b : number) : bool :=
  match a, b with
  | NaN, _ | _, NaN => false
  | _, NegInfinity => false
  | NegInfinity, Int _ => true
  | Int x, Int y => x <? y
  end.

(** [Math.max(a, b)] *)
Definition max (a b : number) : number :=
  match a, b with
  | NaN, _ | _, NaN => NaN
  | NegInfinity, y => y
  | x, NegInfinity => x
  | Int x, Int y => Int (Z.max x y)
  end.

(** [Math.max(...xs)]; [Math.max()] is [-Infinity] *)
Definition Math_max (xs : list number) : number :=
  fold_left max xs NegInfinity.

(** [ToNumber] of a possibly [undefined] integer: [undefined] becomes [NaN] *)
Definition ofUndefined (v : option Z) : number :=
  match v with
  | Some z => Int z
  | None => NaN
  end.

(** [v ?? d] *)
Definition nullish {A : Type} (v : option A) (d : A) : A :=
  match v with
  | Some a => a
  | None => d
  end.

(** [Math.floor(ms / 1000)] and [Math.ceil(ms / 1000)] on an integer [ms] *)
Definition floorSeconds (ms : Z) : Z := ms / 1000.
Definition ceilSeconds (ms : Z) : Z := - ((- ms) / 1000).

End JS.

Import JS.

(** ** Data model *)

Record Rate : Type := mkRate { limit : Z; interval : Z }.

(** Result of [countUntil] *)
Record Counted (T : Type) : Type := mkCounted { count : Z; last : option T }.
Arguments mkCounted {T} _ _.
Arguments count {T} _.
Arguments last {T} _.

(** ** The scanning helpers *)

Fixpoint filterUntil {T : Type} (array : list T) (predicate : T -> bool) : list T :=
  match array with
  | [] => []
  | item :: rest =>
      if predicate item then item :: filterUntil rest predicate else []
  end.

(** The loop of [countUntil], with its two mutable locals as accumulators. *)
Fixpoint countUntil_from {T : Type} (array : list T) (predicate : T -> bool)
    (count0 : Z) (last0 : option T) : Counted T :=
  match array with
  | [] => mkCounted count0 last0
  | item :: rest =>
      if predicate item
      then countUntil_from rest predicate (count0 + 1) (Some item)
      else mkCounted count0 last0
  end.

Definition countUntil {T : Type} (array : list T) (predicate : T -> bool) : Counted T :=
  countUntil_from array predicate 0 None.

(** ** The durable object: [RateLimiter] *)

(** The JSON body of a limiter response.  [JSON.stringify] writes [NaN] as
    [null], which is [None] here. *)
Inductive Data : Type :=
  | OK
  | LIMITED (retryAt : option Z).

(** A limiter response: its body and, when present, the [max-age] of its
    [Cache-Control] header. *)
Record LimiterResponse : Type := mkResponse {
  body : Data;
  cacheControl : option number
}.

Definition jsonNumber (n : number) : option Z :=
  match n with
  | Int z => Some z
  | _ => None
  end.

Definition bucketOf (key : string) : string := ("B/sliding/" ++ key)%string.

Definition biggestInterval (rates : list Rate) : number :=
  Math_max (map (fun rate => Int (interval rate)) rates).

(** [(request) => request + span >= now] *)
Definition inWindow (span : number) (now : Z) (request : Z) : bool :=
  geb (add (Int request) span) (Int now).

(** One iteration of [for (const rate of rates)]. *)
Definition retryAtStep (requests : list Z) (now : Z)
    (retryAt : option number) (rate : Rate) : option number :=
  let c := countUntil requests (inWindow (Int (interval rate)) now) in
  if limit rate <=? count c
  then Some (max (add (Int (interval rate)) (ofUndefined (last c))) (nullish retryAt (Int 0)))
  else retryAt.

(** The whole loop, from [let retryAt = null]. *)
Definition retryAtLoop (rates : list Rate) (requests : list Z) (now : Z) : option number :=
  fold_left (retryAtStep requests now) rates None.

(** The working log: the stored log cut at the first stale entry. *)
Definition workingLog (rates : list Rate) (stored : list Z) (now : Z) : list Z :=
  filterUntil stored (inWindow (biggestInterval rates) now).

(** [if (retryAt === null) requests.unshift(now)] *)
Definition unshiftNow (retryAt : option number) (now : Z) (requests : list Z) : list Z :=
  match retryAt with
  | None => now :: requests
  | Some _ => requests
  end.

Definition respond (retryAt : option number) (now : Z) : LimiterResponse :=
  match retryAt with
  | None => mkResponse OK None
  | Some at_ => mkResponse (LIMITED (jsonNumber at_)) (Some (sub at_ now))
  end.

Definition slidingWindow (storage : gmap string (list Z))
    (rates : list Rate) (key : string) (now : Z)
    : LimiterResponse * gmap string (list Z) :=
  let bucket := bucketOf key in
  let requests := workingLog rates (nullish (storage !! bucket) []) now in
  let retryAt := retryAtLoop rates requests now in
  let requests := unshiftNow retryAt now requests in
  let storage := <[bucket := requests]> storage in
  (respond retryAt now, storage).

(** ** The wire format between coordinator and durable object *)

Module Wire.

(** The request URL [http://rate-limiter?k=<key>&r=<rate>&r=<rate>...],
    kept as its search parameters: the one [k] and the [r]s in order. *)
Record Url : Type := mkUrl { searchK : string; searchR : list string }.

#[export] Instance Url_eq_dec : EqDecision Url.
Proof. solve_decision. Defined.

#[export] Instance Url_countable : Countable Url.
Proof.
  refine (inj_countable' (fun u => (searchK u, searchR u))
            (fun p => mkUrl (fst p) (snd p)) _).
  intros []; reflexivity.
Defined.

(** [`${n}`] for an integer [n] *)
Definition showNumber (n : Z) : string :=
  NilZero.string_of_int (Z.to_int n).

(** The leading decimal digits of a string. *)
Fixpoint decimalPrefix (s : string) : Decimal.uint :=
  match s with
  | EmptyString => Decimal.Nil
  | String c rest =>
      let d := decimalPrefix rest in
      match c with
      | "0" => Decimal.D0 d | "1" => Decimal.D1 d | "2" => Decimal.D2 d
      | "3" => Decimal.D3 d | "4" => Decimal.D4 d | "5" => Decimal.D5 d
      | "6" => Decimal.D6 d | "7" => Decimal.D7 d | "8" => Decimal.D8 d
      | "9" => Decimal.D9 d
      | _ => Decimal.Nil
      end%char
  end.

(** The leading hexadecimal digits of a string, in either case. *)
Fixpoint hexPrefix (s : string) : Hexadecimal.uint :=
  match s with
  | EmptyString => Hexadecimal.Nil
  | String c rest =>
      let d := hexPrefix rest in
      match c with
      | "0" => Hexadecimal.D0 d | "1" => Hexadecimal.D1 d | "2" => Hexadecimal.D2 d
      | "3" => Hexadecimal.D3 d | "4" => Hexadecimal.D4 d | "5" => Hexadecimal.D5 d
      | "6" => Hexadecimal.D6 d | "7" => Hexadecimal.D7 d | "8" => Hexadecimal.D8 d
      | "9" => Hexadecimal.D9 d
      | "a" | "A" => Hexadecimal.Da d | "b" | "B" => Hexadecimal.Db d
      | "c" | "C" => Hexadecimal.Dc d | "d" | "D" => Hexadecimal.Dd d
      | "e" | "E" => Hexadecimal.De d | "f" | "F" => Hexadecimal.Df d
      | _ => Hexadecimal.Nil
      end%char
  end.

Definition isWhiteSpace (c : ascii) : bool :=
  let n := nat_of_ascii c in
  ((9 <=? n) && (n <=? 13))%nat || (n =? 32)%nat.

Fixpoint trimStart (s : string) : string :=
  match s with
  | String c rest => if isWhiteSpace c then trimStart rest else s
  | EmptyString => EmptyString
  end.

(** The number after the sign: a [0x] prefix selects radix 16; then as many
    digits as there are, and nothing ([None]) when there is none. *)
Definition magnitude (s : string) : option Z :=
  match s with
  | String "0" (String "x" rest) | String "0" (String "X" rest) =>
      match hexPrefix rest with
      | Hexadecimal.Nil => None
      | h => Some (Z.of_hex_uint h)
      end
  | _ =>
      match decimalPrefix s with
      | Decimal.Nil => None
      | d => Some (Z.of_uint d)
      end
  end.

(** [parseInt(s)] with no radix argument: leading white space (the ASCII
    white space characters; strings here are byte strings), a sign, the
    magnitude; [NaN] when there is no digit. *)
Definition parseInt (s : string) : number :=
  let s := trimStart s in
  let '(sign, s) :=
    match s with
    | String "-" rest => (-1, rest)
    | String "+" rest => (1, rest)
    | _ => (1, s)
    end in
  match magnitude s with
  | Some m => Int (sign * m)
  | None => NaN
  end.

(** [s.split(sep)] for a one-character separator *)
Fixpoint split (sep : ascii) (s : string) : list string :=
  match s with
  | EmptyString => [EmptyString]
  | String c rest =>
      if Ascii.eqb c sep then EmptyString :: split sep rest
      else match split sep rest with
           | piece :: pieces => String c piece :: pieces
           | [] => [String c EmptyString]
           end
  end.

(** A decimal digit. *)
Definition isDigit (c : ascii) : bool :=
  let n := nat_of_ascii c in ((48 <=? n) && (n <=? 57))%nat.

(** [`${r.limit}:${r.interval}`] *)
Definition encodeRate (rate : Rate) : string :=
  (showNumber (limit rate) ++ ":" ++ showNumber (interval rate))%string.

(** [const [limit, interval] = r.split(":", 2).map((n) => parseInt(n))].
    [None] when one of the two is not an integer ([NaN], or [undefined] for a
    missing second piece): [Rate] holds integers only. *)
Definition decodeRate (r : string) : option Rate :=
  match map parseInt (take 2 (split ":" r)) with
  | [Int limit; Int interval] => Some (mkRate limit interval)
  | _ => None
  end.

End Wire.

Import Wire.

(** [RateLimiter.fetch]: read the clock, decode the request, decide.  The
    result is [None] when an [r] parameter does not decode to two integers;
    [rateLimit] never sends such a request ([fetch_encoded] below). *)
Definition fetch (storage : gmap string (list Z)) (url : Url) (ms : Z)
    : option (LimiterResponse * gmap string (list Z)) :=
  let now := floorSeconds ms in
  let key := searchK url in
  rates ← mapM decodeRate (searchR url);
  Some (slidingWindow storage rates key now).

(** ** The response cache *)

(** What [rateLimit] uses of the Cache API: [cache.match(url)] and
    [cache.put(url, response)], each at the instant (in milliseconds) at which
    it takes effect. *)
Class ResponseCache (C : Type) : Type := {
  cacheMatch : C -> Url -> Z -> option LimiterResponse;
  cachePut : C -> Url -> LimiterResponse -> Z -> C
}.

(** A cache with HTTP freshness: an entry is served while its age is below
    the [max-age] it was stored with; an entry whose [max-age] is not a number
    is never served. *)
Record CacheEntry : Type := mkEntry { entryResponse : LimiterResponse; entryTime : Z }.

Definition fresh (entry : CacheEntry) (ms : Z) : bool :=
  match cacheControl (entryResponse entry) with
  | Some (Int maxAge) => ms <? entryTime entry + 1000 * maxAge
  | _ => false
  end.

#[export] Instance TtlCache : ResponseCache (gmap Url CacheEntry) := {
  cacheMatch cache url ms :=
    match cache !! url with
    | Some entry => if fresh entry ms then Some (entryResponse entry) else None
    | None => None
    end;
  cachePut cache url response ms := <[url := mkEntry response ms]> cache
}.

(** ** The coordinator: [rateLimit] *)

(** The instants of one [rateLimit] call, in milliseconds: when the cache is
    consulted, when the durable object reads [Date.now()], when the deferred
    [cache.put] lands, and when the coordinator reads [Date.now()] for the
    [Retry-After] header. *)
Record Clock : Type := mkClock { atMatch : Z; atFetch : Z; atPut : Z; atReply : Z }.

(** A clock that stands still during the call. *)
Definition instant (ms : Z) : Clock := mkClock ms ms ms ms.

(** [new Response(null, { status: 429, headers: { "Retry-After": ... } })] *)
Record Rejection : Type := mkRejection { status : Z; retryAfter : string }.

(** [rateLimit(namespace, ctx, name, key, rates, options)].  The namespace
    maps a durable object name to that object's storage; [cache] is the cache
    that [caches.open] returns.  The result is [null] ([None]) or the 429
    response, with the namespace and the cache after the call. *)
Definition rateLimit {C : Type} `{ResponseCache C}
    (namespace : gmap string (gmap string (list Z))) (cache : C)
    (name key : string) (rates : list Rate) (clock : Clock)
    : option (option Rejection * gmap string (gmap string (list Z)) * C) :=
  let url := mkUrl key (map encodeRate rates) in
  let cached := cacheMatch cache url (atMatch clock) in
  '(response, namespace) ←
    match cached with
    | Some response => Some (response, namespace)
    | None =>
        '(response, storage) ← fetch (nullish (namespace !! name) ∅) url (atFetch clock);
        Some (response, <[name := storage]> namespace)
    end;
  match body response with
  | OK => Some (None, namespace, cache)
  | LIMITED retryAt =>
      let cache :=
        match cached, cacheControl response with
        | None, Some _ => cachePut cache url response (atPut clock)
        | _, _ => cache
        end in
      let seconds := nullish retryAt 0 - ceilSeconds (atReply clock) in
      Some (Some (mkRejection 429 (showNumber seconds)), namespace, cache)
  end.

(** What the coordinator hands back for a limiter response read at [ms]:
    [null] for [OK], the 429 response for [LIMITED]. *)
Definition reply (response : LimiterResponse) (ms : Z) : option Rejection :=
  match body response with
  | OK => None
  | LIMITED retryAt =>
      Some (mkRejection 429 (showNumber (nullish retryAt 0 - ceilSeconds ms)))
  end.

(** ** Sequences of calls to one durable object *)

(** The spec's [Decision], read off a limiter response. *)
Definition allowed (response : LimiterResponse) : bool :=
  match body response with
  | OK => true
  | LIMITED _ => false
  end.

(** [slidingWindow] called once per element of [times], in order, for one key
    and one rules list; the responses are returned with their times. *)
Fixpoint calls (storage : gmap string (list Z)) (rates : list Rate)
    (key : string) (times : list Z) : list (Z * LimiterResponse) :=
  match times with
  | [] => []
  | now :: later =>
      let '(response, storage) := slidingWindow storage rates key now in
      (now, response) :: calls storage rates key later
  end.

(** The calls answered [OK] whose time lies in the closed window [[from, to]]. *)
Definition allowedWithin (from to : Z) (outcomes : list (Z * LimiterResponse)) : Z :=
  Z.of_nat (length (List.filter
    (fun outcome =>
       allowed (snd outcome) && (from <=? fst outcome) && (fst outcome <=? to))
    outcomes)).

(** ** Notions used to state the properties *)

(** The log kept for [key], empty when the bucket was never written. *)
Definition storedLog (storage : gmap string (list Z)) (key : string) : list Z :=
  nullish (storage !! bucketOf key) [].

(** Newest first: every entry is at least as large as all entries after it;
    strictly so in the second variant. *)
Definition newestFirst (log : list Z) : Prop := StronglySorted Z.ge log.
Definition strictlyNewestFirst (log : list Z) : Prop := StronglySorted Z.gt log.

(** [slidingWindow] seen on the log alone: the value of [retryAt] after the
    loop and the array handed to [storage.put]. *)
Definition decide (rates : list Rate) (stored : list Z) (now : Z)
    : option number * list Z :=
  let requests := workingLog rates stored now in
  let retryAt := retryAtLoop rates requests now in
  (retryAt, unshiftNow retryAt now requests).

(** [decide] over a sequence of times, as [calls] does on the storage. *)
Fixpoint decisions (rates : list Rate) (stored : list Z) (times : list Z)
    : list (Z * LimiterResponse) :=
  match times with
  | [] => []
  | now :: later =>
      let '(retryAt, stored) := decide rates stored now in
      (now, respond retryAt now) :: decisions rates stored later
  end.

(** Entries of a list inside the closed window [[from, to]]. *)
Definition within (from to : Z) (log : list Z) : Z :=
  Z.of_nat (length (List.filter (fun t => (from <=? t) && (t <=? to)) log)).

(** *** Rule evaluation, in the words of the specification

    For one rule: the prefix of the working log with
    [timestamp + interval >= now], its length, and its oldest (last) entry. *)
Definition specPrefix (requests : list Z) (now : Z) (rate : Rate) : list Z :=
  filterUntil requests (fun timestamp => now <=? timestamp + interval rate).

Definition specCount (requests : list Z) (now : Z) (rate : Rate) : Z :=
  Z.of_nat (length (specPrefix requests now rate)).

Definition specBoundary (requests : list Z) (now : Z) (rate : Rate) : option Z :=
  list.last (specPrefix requests now rate).

Definition specViolated (requests : list Z) (now : Z) (rate : Rate) : bool :=
  limit rate <=? specCount requests now rate.


(** A rule as the data model wants it, and its contrary. *)
Definition wellFormed (rate : Rate) : Prop := 0 < limit rate /\ 0 < interval rate.

(** What the code computes for one rule: the result of its [countUntil], and
    its candidate retry time [rate.interval + last!] as a JavaScript number. *)
Definition counted (requests : list Z) (now : Z) (rate : Rate) : Counted Z :=
  countUntil requests (inWindow (Int (interval rate)) now).

Definition candidate (requests : list Z) (now : Z) (rate : Rate) : number :=
  add (Int (interval rate)) (ofUndefined (last (counted requests now rate))).

(** Times of successive calls: each at least as large as those before it. *)
Definition nonDecreasing (times : list Z) : Prop := StronglySorted Z.le times.

(** The stored log against the full history of admitted requests: the
    history is newest first and bounded by the time [prev] of the last call,
    and the stored log is the history without a tail of entries that had left
    the biggest window by then. *)
Definition tracks (biggest : Z) (history stored : list Z) (prev : Z) : Prop :=
  newestFirst history /\
  Forall (fun t => t <= prev) history /\
  exists stale, history = stored ++ stale /\ Forall (fun t => t + biggest < prev) stale.

(** No closed window of a rule's interval holds more admitted requests than
    the rule's limit. *)
Definition respectsLimits (rates : list Rate) (history : list Z) : Prop :=
  forall rate, In rate rates ->
  forall from, within from (from + interval rate) history <= limit rate.

(** ** The middleware: [withRateLimiter] *)

(** A response as the middleware returns it: the status, the body text and
    the [Retry-After] header, when present. *)
Record HttpResponse : Type := mkHttp {
  httpStatus : Z;
  httpBody : option string;
  httpRetryAfter : option string
}.

(** [new Response("Missing client ip", { status: 403 })] *)
Definition missingClientIp : HttpResponse :=
  mkHttp 403 (Some "Missing client ip"%string) None.

(** The 429 response of [rateLimit], in the same type. *)
Definition ofRejection (rejection : Rejection) : HttpResponse :=
  mkHttp (status rejection) None (Some (retryAfter rejection)).

(** A value of the worker's [env]: a binding may be missing, a string
    variable, or a JSON boolean (other JSON values are left out). *)
Inductive EnvValue : Type :=
  | EnvUndefined
  | EnvString (s : string)
  | EnvBool (b : bool).

(** [!!v]: [undefined], the empty string and [false] are falsy. *)
Definition truthy (v : EnvValue) : bool :=
  match v with
  | EnvUndefined => false
  | EnvString EmptyString => false
  | EnvString _ => true
  | EnvBool b => b
  end.

(** [env[name]] *)
Definition envLookup (env : gmap string EnvValue) (name : string) : EnvValue :=
  nullish (env !! name) EnvUndefined.

(** The [rates] and [key] arguments: a value, or a function of the request
    and the environment that returns a value or a [Response]. *)
Inductive Source (R A : Type) : Type :=
  | Fixed (a : A)
  | Computed (f : R -> gmap string EnvValue -> A + HttpResponse).
Arguments Fixed {R A} _.
Arguments Computed {R A} _.

(** [typeof x === "function" ? await x(request, env, ctx) : x] *)
Definition resolve {R A : Type} (source : Source R A) (request : R)
    (env : gmap string EnvValue) : A + HttpResponse :=
  match source with
  | Fixed a => inl a
  | Computed f => f request env
  end.

(** The handler that [withRateLimiter(namespace, rates, key)] returns, applied
    to a request.  [clientIp request] is
    [request.headers.get("CF-Connecting-IP")]; the namespace argument is the
    state behind [env[namespace]].  The result is the response returned, or
    [None] for [undefined], with the namespace and the cache after the
    call. *)
Definition withRateLimiter {C : Type} `{ResponseCache C} {R : Type}
    (clientIp : R -> option string)
    (rates : Source R (list Rate)) (key : option (Source R string))
    (request : R) (env : gmap string EnvValue)
    (namespace : gmap string (gmap string (list Z))) (cache : C) (clock : Clock)
    : option (option HttpResponse * gmap string (gmap string (list Z)) * C) :=
  let ip := clientIp request in
  if bool_decide (ip = None) && negb (truthy (envLookup env "RATE_LIMITER_ALLOW_MISSING_IP"))
  then Some (Some missingClientIp, namespace, cache)
  else
    let key_ : option string + HttpResponse :=
      match key with
      | Some source =>
          match resolve source request env with
          | inl k => inl (Some k)
          | inr response => inr response
          end
      | None => inl None
      end in
    match key_ with
    | inr response => Some (Some response, namespace, cache)
    | inl key_ =>
        match resolve rates request env with
        | inr response => Some (Some response, namespace, cache)
        | inl rates_ =>
            match rateLimit namespace cache
                    (nullish ip "127.0.0.1"%string)
                    (nullish key_ (nullish ip "127.0.0.1"%string))
                    rates_ clock with
            | Some (limited, namespace, cache) =>
                Some (ofRejection <$> limited, namespace, cache)
            | None => None
            end
        end
    end.

(** ** Sequences of calls, with their final state *)

(** The storage after [slidingWindow] was called at each of [times]. *)
Fixpoint storageAfter (storage : gmap string (list Z)) (rates : list Rate)
    (key : string) (times : list Z) : gmap string (list Z) :=
  match times with
  | [] => storage
  | now :: later =>
      storageAfter (snd (slidingWindow storage rates key now)) rates key later
  end.

(** [rateLimit] called once per clock, in order, for one durable object, one
    key and one rules list, on the freshness cache: for each call the time
    the durable object would read, and whether the call was let through
    ([null]). *)
Fixpoint coordinatorCalls (namespace : gmap string (gmap string (list Z)))
    (cache : gmap Url CacheEntry) (name key : string) (rates : list Rate)
    (clocks : list Clock) : list (Z * bool) :=
  match clocks with
  | [] => []
  | clock :: later =>
      match rateLimit namespace cache name key rates clock with
      | Some (limited, namespace, cache) =>
          (floorSeconds (atFetch clock), bool_decide (limited = None))
            :: coordinatorCalls namespace cache name key rates later
      | None => []
      end
  end.

(** The calls let through whose time lies in the closed window [[from, to]]. *)
Definition passedWithin (from to : Z) (outcomes : list (Z * bool)) : Z :=
  Z.of_nat (length (List.filter
    (fun outcome => snd outcome && (from <=? fst outcome) && (fst outcome <=? to))
    outcomes)).

(** Every entry of the cache holds a [LIMITED] response. *)
Definition onlyLimited (cache : gmap Url CacheEntry) : Prop :=
  forall url entry, cache !! url = Some entry -> allowed (entryResponse entry) = false.

(** ** The earlier [rateLimit] and the example worker *)

(** The four-argument [rateLimit(namespace, ctx, key, rates)] of the earlier
    revision: the same function, with the durable object named after the
    key. *)
Definition rateLimitByKey {C : Type} `{ResponseCache C}
    (namespace : gmap string (gmap string (list Z))) (cache : C)
    (key : string) (rates : list Rate) (clock : Clock)
    : option (option Rejection * gmap string (gmap string (list Z)) * C) :=
  rateLimit namespace cache key key rates clock.

(** The example worker's [fetch]: every request is limited under the key
    ["0"] by [{limit: 3, interval: 10}]; the 429 response is returned when
    there is one, and [new Response("OK!")] otherwise. *)
Definition exampleFetch (namespace : gmap string (gmap string (list Z)))
    (cache : gmap Url CacheEntry) (clock : Clock)
    : option (HttpResponse * gmap string (gmap string (list Z)) * gmap Url CacheEntry) :=
  match rateLimitByKey namespace cache "0" [mkRate 3 10] clock with
  | Some (limited, namespace, cache) =>
      Some (match limited with
            | Some rejection => ofRejection rejection
            | None => mkHttp 200 (Some "OK!"%string) None
            end, namespace, cache)
  | None => None
  end.

(** The example worker serving one request per clock, in order: for each the
    time the durable object would read, and the response. *)
Fixpoint exampleRequests (namespace : gmap string (gmap string (list Z)))
    (cache : gmap Url CacheEntry) (clocks : list Clock) : list (Z * HttpResponse) :=
  match clocks with
  | [] => []
  | clock :: later =>
      match exampleFetch namespace cache clock with
      | Some (response, namespace, cache) =>
          (floorSeconds (atFetch clock), response)
            :: exampleRequests namespace cache later
      | None => []
      end
  end.

(** The responses with status 200 whose time lies in [[from, to]]. *)
Definition okWithin (from to : Z) (served : list (Z * HttpResponse)) : Z :=
  Z.of_nat (length (List.filter
    (fun o => (httpStatus (snd o) =? 200) && (from <=? fst o) && (fst o <=? to))
    served)).

(** * Properties *)

(** A bound on every entry of a list follows from a stronger bound that is
    among the hypotheses. *)
Ltac weaken_Forall :=
  eapply Forall_impl; [eassumption|]; simpl; intros; lia.

(** ** The scanning helpers *)

Section Scanning.
Context {T : Type} (predicate : T -> bool).

Lemma filterUntil_prefix (array : list T) :
  filterUntil array predicate `prefix_of` array.
Proof.
  induction array as [|item rest IH]; simpl.
  - reflexivity.
  - destruct (predicate item).
    + now apply prefix_cons.
    + apply prefix_nil.
Qed.

Lemma filterUntil_Forall (array : list T) :
  Forall (fun item => predicate item = true) (filterUntil array predicate).
Proof.
  induction array as [|item rest IH]; simpl; [constructor|].
  destruct (predicate item) eqn:E; now constructor.
Qed.

Lemma filterUntil_longest (array pre : list T) :
  pre `prefix_of` array ->
  Forall (fun item => predicate item = true) pre ->
  pre `prefix_of` filterUntil array predicate.
Proof.
  revert pre. induction array as [|item rest IH]; intros pre Hpre Hall.
  - apply prefix_nil_inv in Hpre. subst. reflexivity.
  - destruct pre as [|p pre]; [apply prefix_nil|].
    destruct Hpre as [k Hk]. simpl in Hk. injection Hk as -> ->.
    inversion Hall as [|? ? Hp Hrest]; subst. simpl. rewrite Hp.
    apply prefix_cons, IH; [now exists k | assumption].
Qed.

Lemma filterUntil_head_false (item : T) (rest : list T) :
  predicate item = false -> filterUntil (item :: rest) predicate = [].
Proof. intros E. simpl. now rewrite E. Qed.

Lemma filterUntil_idem (array : list T) :
  filterUntil (filterUntil array predicate) predicate = filterUntil array predicate.
Proof.
  induction array as [|item rest IH]; simpl; [reflexivity|].
  destruct (predicate item) eqn:E; simpl; [|reflexivity].
  now rewrite E, IH.
Qed.

Lemma countUntil_from_spec (array : list T) (count0 : Z) (last0 : option T) :
  countUntil_from array predicate count0 last0 =
    mkCounted (count0 + Z.of_nat (length (filterUntil array predicate)))
              (match list.last (filterUntil array predicate) with
               | Some item => Some item
               | None => last0
               end).
Proof.
  revert count0 last0.
  induction array as [|item rest IH]; intros count0 last0; simpl.
  - f_equal. lia.
  - destruct (predicate item) eqn:E; simpl.
    + rewrite IH. f_equal; [lia|].
      destruct (filterUntil rest predicate) as [|x xs] eqn:F; simpl; [reflexivity|].
      destruct (list.last (x :: xs)) eqn:L; [reflexivity | apply last_None in L; discriminate].
    + f_equal. lia.
Qed.

Lemma countUntil_count (array : list T) :
  count (countUntil array predicate) =
    Z.of_nat (length (filterUntil array predicate)).
Proof. unfold countUntil. now rewrite countUntil_from_spec. Qed.

Lemma countUntil_last (array : list T) :
  last (countUntil array predicate) = list.last (filterUntil array predicate).
Proof.
  unfold countUntil. rewrite countUntil_from_spec. simpl.
  now destruct (list.last _).
Qed.

Lemma countUntil_last_defined (array : list T) :
  1 <= count (countUntil array predicate) ->
  exists item, last (countUntil array predicate) = Some item /\ In item array
               /\ predicate item = true.
Proof.
  rewrite countUntil_count, countUntil_last. intros Hc.
  destruct (list.last (filterUntil array predicate)) as [item|] eqn:L.
  - exists item. split; [reflexivity|].
    apply last_Some_elem_of in L.
    split.
    + apply list_elem_of_In.
      destruct (filterUntil_prefix array) as [k Hk]. rewrite Hk.
      apply elem_of_app. now left.
    + pose proof (filterUntil_Forall array) as HF.
      rewrite Forall_forall in HF. now apply HF.
  - apply last_None in L. rewrite L in Hc. simpl in Hc. lia.
Qed.
End Scanning.

(** ** Windows and the biggest interval *)

Lemma inWindow_Int (span now request : Z) :
  inWindow (Int span) now request = (now <=? request + span).
Proof. reflexivity. Qed.

Lemma inWindow_NegInfinity (now request : Z) :
  inWindow NegInfinity now request = false.
Proof. reflexivity. Qed.

Lemma inWindow_true (span now request : Z) :
  inWindow (Int span) now request = true <-> request + span >= now.
Proof. rewrite inWindow_Int, Z.leb_le. lia. Qed.

Lemma inWindow_false (span now request : Z) :
  inWindow (Int span) now request = false <-> request + span < now.
Proof. rewrite inWindow_Int, Z.leb_gt. lia. Qed.

Lemma fold_max_Int (zs : list Z) (a : Z) :
  fold_left max (map Int zs) (Int a) = Int (fold_left Z.max zs a).
Proof.
  revert a. induction zs as [|z zs IH]; intros a; simpl; [reflexivity|].
  apply IH.
Qed.

Lemma fold_Zmax_ge_init (zs : list Z) (a : Z) : a <= fold_left Z.max zs a.
Proof.
  revert a. induction zs as [|z zs IH]; intros a; simpl; [lia|].
  specialize (IH (Z.max a z)). lia.
Qed.

Lemma fold_Zmax_ge_elem (zs : list Z) (a z : Z) :
  In z zs -> z <= fold_left Z.max zs a.
Proof.
  revert a. induction zs as [|y zs IH]; intros a; simpl; [tauto|].
  intros [->|Hin].
  - pose proof (fold_Zmax_ge_init zs (Z.max a z)). lia.
  - now apply IH.
Qed.

Lemma fold_Zmax_attained (zs : list Z) (a : Z) :
  fold_left Z.max zs a = a \/ In (fold_left Z.max zs a) zs.
Proof.
  revert a. induction zs as [|y zs IH]; intros a; simpl; [now left|].
  destruct (IH (Z.max a y)) as [E|Hin].
  - rewrite E. destruct (Z.max_spec a y) as [[_ ->]|[_ ->]]; auto.
  - auto.
Qed.

Lemma biggestInterval_nil : biggestInterval [] = NegInfinity.
Proof. reflexivity. Qed.

Lemma biggestInterval_cons (rate : Rate) (rates : list Rate) :
  biggestInterval (rate :: rates) =
    Int (fold_left Z.max (map interval rates) (interval rate)).
Proof.
  unfold biggestInterval, Math_max. simpl.
  rewrite <- fold_max_Int, map_map. reflexivity.
Qed.

(** For a non-empty rules list [biggestInterval] is the largest interval. *)
Lemma biggestInterval_spec (rates : list Rate) :
  rates <> [] ->
  exists biggest,
    biggestInterval rates = Int biggest /\
    (exists rate, In rate rates /\ interval rate = biggest) /\
    (forall rate, In rate rates -> interval rate <= biggest).
Proof.
  destruct rates as [|rate rates]; [congruence|]. intros _.
  exists (fold_left Z.max (map interval rates) (interval rate)).
  split; [apply biggestInterval_cons|]. split.
  - destruct (fold_Zmax_attained (map interval rates) (interval rate)) as [E|Hin].
    + exists rate. split; [now left | now rewrite E].
    + apply in_map_iff in Hin. destruct Hin as (r & Hr & Hin).
      exists r. split; [now right | assumption].
  - intros r [<-|Hin].
    + apply fold_Zmax_ge_init.
    + apply fold_Zmax_ge_elem, in_map_iff. now exists r.
Qed.

(** ** The rule loop *)

Lemma counted_count (requests : list Z) (now : Z) (rate : Rate) :
  count (counted requests now rate) = specCount requests now rate.
Proof. unfold counted. now rewrite countUntil_count. Qed.

Lemma counted_last (requests : list Z) (now : Z) (rate : Rate) :
  last (counted requests now rate) = specBoundary requests now rate.
Proof. unfold counted. now rewrite countUntil_last. Qed.

Lemma candidate_spec (requests : list Z) (now : Z) (rate : Rate) :
  candidate requests now rate =
    add (Int (interval rate)) (ofUndefined (specBoundary requests now rate)).
Proof. unfold candidate. now rewrite counted_last. Qed.

Lemma retryAtStep_eq (requests : list Z) (now : Z) (retryAt : option number) (rate : Rate) :
  retryAtStep requests now retryAt rate =
    if specViolated requests now rate
    then Some (max (candidate requests now rate) (nullish retryAt (Int 0)))
    else retryAt.
Proof.
  unfold retryAtStep, specViolated, candidate.
  fold (counted requests now rate).
  now rewrite counted_count.
Qed.

(** The loop in closed form: nothing changes unless some rule is violated, and
    then the result is [Math.max] over the violated rules' candidates and the
    previous value, or 0 for [null]. *)
Lemma retryAt_fold (rates : list Rate) (requests : list Z) (now : Z) (retryAt : option number) :
  fold_left (retryAtStep requests now) rates retryAt =
    match List.filter (specViolated requests now) rates with
    | [] => retryAt
    | violated =>
        Some (fold_left (fun acc c => max c acc)
                (map (candidate requests now) violated) (nullish retryAt (Int 0)))
    end.
Proof.
  revert retryAt. induction rates as [|rate rates IH]; intros retryAt; simpl.
  - reflexivity.
  - rewrite IH, retryAtStep_eq.
    destruct (specViolated requests now rate) eqn:V; simpl; [|reflexivity].
    now destruct (List.filter _ rates).
Qed.

Lemma retryAtLoop_closed (rates : list Rate) (requests : list Z) (now : Z) :
  retryAtLoop rates requests now =
    match List.filter (specViolated requests now) rates with
    | [] => None
    | violated =>
        Some (fold_left (fun acc c => max c acc)
                (map (candidate requests now) violated) (Int 0))
    end.
Proof. unfold retryAtLoop. now rewrite retryAt_fold. Qed.

Lemma retryAtLoop_None (rates : list Rate) (requests : list Z) (now : Z) :
  retryAtLoop rates requests now = None <->
  forall rate, In rate rates -> specCount requests now rate < limit rate.
Proof.
  rewrite retryAtLoop_closed. split.
  - intros H rate Hin.
    destruct (List.filter _ rates) as [|v vs] eqn:F; [|discriminate].
    destruct (specViolated requests now rate) eqn:V.
    + assert (In rate (List.filter (specViolated requests now) rates)) as Hf
        by (apply filter_In; auto).
      rewrite F in Hf. destruct Hf.
    + unfold specViolated in V. apply Z.leb_gt in V. lia.
  - intros H. destruct (List.filter _ rates) as [|v vs] eqn:F; [reflexivity|].
    assert (In v (List.filter (specViolated requests now) rates)) as Hf
      by (rewrite F; now left).
    apply filter_In in Hf. destruct Hf as [Hin V].
    specialize (H v Hin). unfold specViolated in V. apply Z.leb_le in V. lia.
Qed.

(** ** Logs that are newest first *)

Lemma newestFirst_cons (t : Z) (log : list Z) :
  newestFirst (t :: log) <-> newestFirst log /\ Forall (fun u => u <= t) log.
Proof.
  unfold newestFirst. split.
  - intros H. apply StronglySorted_inv in H. destruct H as [Hs Hall].
    split; [assumption|]. weaken_Forall.
  - intros [Hs Hall]. constructor; [assumption|].
    weaken_Forall.
Qed.

Lemma strictlyNewestFirst_cons (t : Z) (log : list Z) :
  strictlyNewestFirst (t :: log) <->
  strictlyNewestFirst log /\ Forall (fun u => u < t) log.
Proof.
  unfold strictlyNewestFirst. split.
  - intros H. apply StronglySorted_inv in H. destruct H as [Hs Hall].
    split; [assumption|]. weaken_Forall.
  - intros [Hs Hall]. constructor; [assumption|].
    weaken_Forall.
Qed.

Lemma newestFirst_app (front back : list Z) :
  newestFirst (front ++ back) -> newestFirst front /\ newestFirst back.
Proof.
  induction front as [|t front IH]; simpl.
  - intros H. split; [constructor | assumption].
  - rewrite !newestFirst_cons. intros [Hs Hall].
    apply Forall_app in Hall. destruct (IH Hs). tauto.
Qed.

Lemma strictlyNewestFirst_app (front back : list Z) :
  strictlyNewestFirst (front ++ back) -> strictlyNewestFirst front.
Proof.
  induction front as [|t front IH]; simpl.
  - intros _. constructor.
  - rewrite !strictlyNewestFirst_cons. intros [Hs Hall].
    apply Forall_app in Hall. tauto.
Qed.

(** On a log that is newest first, a scan that stops at the first entry
    outside a window has seen every entry inside it. *)
Lemma filterUntil_newestFirst (log : list Z) (span now : Z) :
  newestFirst log ->
  exists stale,
    log = filterUntil log (inWindow (Int span) now) ++ stale /\
    Forall (fun t => t + span < now) stale.
Proof.
  induction log as [|t log IH]; intros Hs.
  - exists []. split; [reflexivity | constructor].
  - apply newestFirst_cons in Hs. destruct Hs as [Hs Hall]. simpl.
    destruct (inWindow (Int span) now t) eqn:E.
    + destruct (IH Hs) as (stale & Heq & Hstale).
      exists stale. split; [simpl; now f_equal | assumption].
    + apply inWindow_false in E. exists (t :: log). split; [reflexivity|].
      constructor; [assumption|].
      weaken_Forall.
Qed.

Lemma filter_none {A : Type} (p : A -> bool) (l : list A) :
  Forall (fun x => p x = false) l -> List.filter p l = [].
Proof.
  induction 1 as [|x l Hx _ IH]; simpl; [reflexivity|].
  now rewrite Hx.
Qed.

Lemma filterUntil_filter (log : list Z) (span now : Z) :
  newestFirst log ->
  filterUntil log (inWindow (Int span) now) = List.filter (inWindow (Int span) now) log.
Proof.
  intros Hs. destruct (filterUntil_newestFirst log span now Hs) as (stale & Heq & Hstale).
  rewrite Heq at 2. rewrite List.filter_app.
  rewrite (filter_none _ stale).
  - rewrite app_nil_r. symmetry. apply forallb_filter_id.
    apply forallb_forall. apply List.Forall_forall, filterUntil_Forall.
  - eapply Forall_impl; [eassumption|]. intros t Ht. now apply inWindow_false.
Qed.

(** ** [slidingWindow] and [decide] *)

Lemma slidingWindow_decide (storage : gmap string (list Z)) (rates : list Rate)
    (key : string) (now : Z) :
  slidingWindow storage rates key now =
    (respond (fst (decide rates (storedLog storage key) now)) now,
     <[bucketOf key := snd (decide rates (storedLog storage key) now)]> storage).
Proof. reflexivity. Qed.

Lemma storedLog_insert (storage : gmap string (list Z)) (key : string) (log : list Z) :
  storedLog (<[bucketOf key := log]> storage) key = log.
Proof. unfold storedLog. now rewrite lookup_insert_eq. Qed.

Lemma allowed_respond (retryAt : option number) (now : Z) :
  allowed (respond retryAt now) = true <-> retryAt = None.
Proof. unfold allowed, respond. destruct retryAt; simpl; split; congruence. Qed.

Lemma calls_decisions (storage : gmap string (list Z)) (rates : list Rate)
    (key : string) (times : list Z) :
  calls storage rates key times = decisions rates (storedLog storage key) times.
Proof.
  revert storage. induction times as [|now later IH]; intros storage; [reflexivity|].
  cbn [calls decisions]. rewrite slidingWindow_decide.
  destruct (decide rates (storedLog storage key) now) as [retryAt stored'] eqn:D.
  cbn [fst snd]. f_equal. rewrite IH. now rewrite storedLog_insert.
Qed.

(** ** What one call persists *)

(** C4.  Whatever the outcome, [slidingWindow] writes the bucket of its key
    and no other: on [OK] the written log is [now] in front of the working
    log; on [LIMITED] it is the working log itself, so that [now] is not
    recorded, the written log is no longer than the log stored before, and it
    holds no stale entry. *)
Theorem slidingWindow_persists (storage : gmap string (list Z)) (rates : list Rate)
    (key : string) (now : Z) :
  let stored := storedLog storage key in
  let requests := workingLog rates stored now in
  let response := fst (slidingWindow storage rates key now) in
  let storage' := snd (slidingWindow storage rates key now) in
  storage' !! bucketOf key =
    Some (if allowed response then now :: requests else requests) /\
  requests `prefix_of` stored /\
  Forall (fun t => inWindow (biggestInterval rates) now t = true) requests /\
  (allowed response = false ->
   storedLog storage' key = requests /\
   (length (storedLog storage' key) <= length stored)%nat) /\
  (forall bucket, bucket <> bucketOf key -> storage' !! bucket = storage !! bucket).
Proof.
  intros stored requests response storage'.
  subst response storage'. rewrite slidingWindow_decide. cbn [fst snd].
  rewrite storedLog_insert.
  unfold decide. fold stored. fold requests. cbn [fst snd].
  assert (requests `prefix_of` stored) as Hprefix by apply filterUntil_prefix.
  split; [|split; [|split; [|split]]].
  - rewrite lookup_insert_eq. f_equal.
    destruct (retryAtLoop rates requests now); reflexivity.
  - exact Hprefix.
  - apply filterUntil_Forall.
  - destruct (retryAtLoop rates requests now); [|discriminate].
    intros _. split; [reflexivity | now apply prefix_length].
  - intros bucket Hne. now rewrite lookup_insert_ne.
Qed.

(** The scenario of the specification: one rule [{limit: 2, interval: 10}],
    calls at 0, 1 and 2. *)
Example two_then_limited :
  map (fun outcome => body (snd outcome)) (calls ∅ [mkRate 2 10] "k" [0; 1; 2])
    = [OK; OK; LIMITED (Some 10)].
Proof. reflexivity. Qed.

(** ** The working log *)

(** C3.  The working log is the longest prefix of the stored log all of whose
    entries satisfy [timestamp + biggestInterval >= now]; for a non-empty
    rules list [biggestInterval] is the largest interval of the rules.  The
    window of a rule is closed: on a log that is newest first, an entry [t0]
    is counted for the rule at [now = t0 + interval] and is not counted at
    [now = t0 + interval + 1]. *)
Theorem workingLog_longest_prefix (rates : list Rate) (stored : list Z) (now : Z) :
  let kept t := geb (add (Int t) (biggestInterval rates)) (Int now) = true in
  (workingLog rates stored now `prefix_of` stored /\
   Forall kept (workingLog rates stored now) /\
   (forall pre, pre `prefix_of` stored -> Forall kept pre ->
                pre `prefix_of` workingLog rates stored now)) /\
  (rates <> [] ->
   exists biggest,
     biggestInterval rates = Int biggest /\
     (exists rate, In rate rates /\ interval rate = biggest) /\
     (forall rate, In rate rates -> interval rate <= biggest) /\
     (forall t, kept t <-> t + biggest >= now)) /\
  (forall rate t0,
     In rate rates -> newestFirst stored -> In t0 stored ->
     let countedAt now' :=
       filterUntil (workingLog rates stored now') (inWindow (Int (interval rate)) now') in
     In t0 (countedAt (t0 + interval rate)) /\
     ~ In t0 (countedAt (t0 + interval rate + 1)) /\
     (forall now', count (counted (workingLog rates stored now') now' rate) =
                   Z.of_nat (length (countedAt now')))).
Proof.
  intros kept. split; [|split].
  - split; [apply filterUntil_prefix|].
    split; [apply filterUntil_Forall|].
    intros pre Hpre Hall. now apply filterUntil_longest.
  - intros Hne. destruct (biggestInterval_spec rates Hne) as (biggest & Hb & Hex & Hle).
    exists biggest. repeat split; try assumption.
    + unfold kept. rewrite Hb. intros H. now apply inWindow_true.
    + unfold kept. rewrite Hb. intros H. now apply inWindow_true.
  - intros rate t0 Hrate Hsorted Hin countedAt.
    assert (rates <> []) as Hne by (intros ->; destruct Hrate).
    destruct (biggestInterval_spec rates Hne) as (biggest & Hb & _ & Hle).
    specialize (Hle rate Hrate).
    assert (forall now', countedAt now' =
              List.filter (inWindow (Int (interval rate)) now')
                (List.filter (inWindow (Int biggest) now') stored)) as Hc.
    { intros now'. unfold countedAt, workingLog. rewrite Hb.
      pose proof (filterUntil_newestFirst stored biggest now' Hsorted)
        as (stale & Heq & _).
      rewrite <- (filterUntil_filter stored biggest now' Hsorted).
      apply filterUntil_filter.
      rewrite Heq in Hsorted. now apply newestFirst_app in Hsorted. }
    split; [|split].
    + rewrite Hc. apply filter_In. split.
      * apply filter_In. split; [assumption|]. apply inWindow_true. lia.
      * apply inWindow_true. lia.
    + rewrite Hc. intros H. apply filter_In in H. destruct H as [_ H].
      apply inWindow_true in H. lia.
    + intros now'. unfold counted. now rewrite countUntil_count.
Qed.

(** A log whose head is the admitted request [t0], seen by a rule of the
    list at the two instants of the claim. *)
Lemma workingLog_longest_prefix_witness :
  count (counted (workingLog [mkRate 2 10] [7; 3] 17) 17 (mkRate 2 10)) = 1 /\
  count (counted (workingLog [mkRate 2 10] [7; 3] 18) 18 (mkRate 2 10)) = 0.
Proof.
  destruct (workingLog_longest_prefix [mkRate 2 10] [7; 3] 17) as (_ & _ & H).
  destruct (H (mkRate 2 10) 7) as (_ & _ & Hcount).
  - now left.
  - repeat constructor; lia.
  - now left.
  - split; rewrite Hcount; reflexivity.
Defined.

(** ** A log that has aged out *)

Lemma ltb_not_geb (a b : number) : ltb a b = true -> geb a b = false.
Proof.
  destruct a as [| |x], b as [| |y]; simpl; try congruence.
  rewrite Z.ltb_lt, Z.leb_gt. lia.
Qed.

Lemma workingLog_aged (rates : list Rate) (stored : list Z) (now : Z) :
  Forall (fun t => ltb (add (Int t) (biggestInterval rates)) (Int now) = true) stored ->
  workingLog rates stored now = [].
Proof.
  intros Hall. destruct stored as [|t stored]; [reflexivity|].
  apply filterUntil_head_false. unfold inWindow.
  apply ltb_not_geb. now inversion Hall.
Qed.

Lemma specCount_nil (now : Z) (rate : Rate) : specCount [] now rate = 0.
Proof. reflexivity. Qed.

(** C9.  When every stored timestamp has [t + biggestInterval < now], the call
    answers and persists exactly what it would for a key that was never seen;
    if moreover every limit is at least 1, the answer is [OK] and the
    persisted log is [[now]]. *)
Theorem aged_log_as_fresh (storage : gmap string (list Z)) (rates : list Rate)
    (key : string) (now : Z) :
  Forall (fun t => ltb (add (Int t) (biggestInterval rates)) (Int now) = true)
         (storedLog storage key) ->
  slidingWindow storage rates key now =
    slidingWindow (delete (bucketOf key) storage) rates key now /\
  storedLog (snd (slidingWindow storage rates key now)) key =
    storedLog (snd (slidingWindow ∅ rates key now)) key /\
  fst (slidingWindow storage rates key now) = fst (slidingWindow ∅ rates key now) /\
  ((forall rate, In rate rates -> 1 <= limit rate) ->
   body (fst (slidingWindow storage rates key now)) = OK /\
   storedLog (snd (slidingWindow storage rates key now)) key = [now]).
Proof.
  intros Haged.
  assert (forall fresh : gmap string (list Z), fresh !! bucketOf key = None ->
            decide rates (storedLog fresh key) now =
            decide rates (storedLog storage key) now) as Hsame.
  { intros fresh Hfresh.
    assert (storedLog fresh key = []) as -> by (unfold storedLog; now rewrite Hfresh).
    unfold decide.
    now rewrite (workingLog_aged rates (storedLog storage key) now Haged). }
  rewrite !slidingWindow_decide. cbn [fst snd]. rewrite !storedLog_insert.
  rewrite (Hsame (delete (bucketOf key) storage)) by apply lookup_delete_eq.
  rewrite (Hsame ∅) by apply lookup_empty.
  split; [now rewrite insert_delete_eq|].
  split; [reflexivity|]. split; [reflexivity|].
  intros Hlimit. unfold decide.
  rewrite (workingLog_aged rates (storedLog storage key) now Haged). cbn [fst snd].
  assert (retryAtLoop rates [] now = None) as ->.
  { apply retryAtLoop_None. intros rate Hin. rewrite specCount_nil.
    specialize (Hlimit rate Hin). lia. }
  split; reflexivity.
Qed.

Lemma aged_log_as_fresh_witness :
  body (fst (slidingWindow {[ bucketOf "k" := [20; 10] ]} [mkRate 1 5; mkRate 2 60] "k" 100)) = OK /\
  storedLog (snd (slidingWindow {[ bucketOf "k" := [20; 10] ]} [mkRate 1 5; mkRate 2 60] "k" 100)) "k"
    = [100].
Proof.
  apply (aged_log_as_fresh {[ bucketOf "k" := [20; 10] ]} [mkRate 1 5; mkRate 2 60] "k" 100).
  - vm_compute. repeat constructor.
  - intros rate [<-|[<-|[]]]; simpl; lia.
Defined.

(** ** The boundary of a violated rule *)

Lemma fold_max_candidates_Int (cs : list number) (a : Z) :
  Forall (fun c => exists z, c = Int z) cs ->
  exists m, fold_left (fun acc c => max c acc) cs (Int a) = Int m.
Proof.
  revert a. induction cs as [|c cs IH]; intros a Hall; simpl.
  - now exists a.
  - inversion Hall as [|? ? [z ->] Hrest]; subst. simpl. now apply IH.
Qed.

Lemma violated_boundary (requests : list Z) (now : Z) (rate : Rate) :
  1 <= limit rate ->
  limit rate <= count (counted requests now rate) ->
  exists boundary,
    last (counted requests now rate) = Some boundary /\
    In boundary requests /\
    boundary + interval rate >= now /\
    candidate requests now rate = Int (interval rate + boundary).
Proof.
  intros Hlimit Hviolated.
  destruct (countUntil_last_defined (inWindow (Int (interval rate)) now) requests)
    as (boundary & Hlast & Hin & Hp).
  { fold (counted requests now rate). lia. }
  exists boundary. fold (counted requests now rate) in Hlast.
  split; [assumption|]. split; [assumption|]. split.
  - now apply inWindow_true.
  - unfold candidate. now rewrite Hlast.
Qed.

(** C10.  With every limit at least 1, a rule that reaches the violation
    branch ([count >= rate.limit]) has a defined [last], so
    [rate.interval + last!] is an integer; hence the loop never leaves [NaN]
    in [retryAt]. *)
Theorem violated_rule_has_last (rates : list Rate) (requests : list Z) (now : Z)
    (rate : Rate) :
  (forall r, In r rates -> 1 <= limit r) ->
  In rate rates ->
  limit rate <= count (counted requests now rate) ->
  (exists boundary,
      last (counted requests now rate) = Some boundary /\
      candidate requests now rate = Int (interval rate + boundary)) /\
  (exists at_, retryAtLoop rates requests now = Some (Int at_)).
Proof.
  intros Hlimits Hin Hviolated. split.
  - destruct (violated_boundary requests now rate (Hlimits rate Hin) Hviolated)
      as (boundary & Hlast & _ & _ & Hc).
    now exists boundary.
  - rewrite retryAtLoop_closed.
    assert (In rate (List.filter (specViolated requests now) rates)) as Hf.
    { apply filter_In. split; [assumption|]. unfold specViolated.
      rewrite <- counted_count. now apply Z.leb_le. }
    destruct (List.filter (specViolated requests now) rates) as [|v vs] eqn:F;
      [destruct Hf|].
    destruct (fold_max_candidates_Int (map (candidate requests now) (v :: vs)) 0)
      as [m Hm]; [|exists m; now rewrite Hm].
    apply List.Forall_forall. intros c Hc. apply in_map_iff in Hc.
    destruct Hc as (r & <- & Hr). rewrite <- F in Hr. apply filter_In in Hr.
    destruct Hr as [Hr Hv]. unfold specViolated in Hv. apply Z.leb_le in Hv.
    rewrite <- counted_count in Hv.
    destruct (violated_boundary requests now r (Hlimits r Hr) Hv)
      as (boundary & _ & _ & _ & Hcand).
    eauto.
Qed.

Lemma violated_rule_has_last_witness :
  (exists boundary,
      last (counted [8; 5; 1] 10 (mkRate 2 5)) = Some boundary /\
      candidate [8; 5; 1] 10 (mkRate 2 5) = Int (5 + boundary)) /\
  (exists at_, retryAtLoop [mkRate 2 5; mkRate 4 20] [8; 5; 1] 10 = Some (Int at_)).
Proof.
  apply (violated_rule_has_last [mkRate 2 5; mkRate 4 20] [8; 5; 1] 10 (mkRate 2 5)).
  - intros r [<-|[<-|[]]]; simpl; lia.
  - now left.
  - vm_compute. discriminate.
Defined.

(** ** Two rules at once *)

(** C6.  Rules [{limit:3, interval:10}] and [{limit:1, interval:100}], in
    that order, on a key with no stored log: the request at [t = 0] is
    answered [OK], the request at [t = 5] is answered [LIMITED] with
    [retryAt = 100]. *)
Theorem two_rules_stricter_governs (storage : gmap string (list Z)) (key : string) :
  storage !! bucketOf key = None ->
  map (fun outcome => body (snd outcome))
      (calls storage [mkRate 3 10; mkRate 1 100] key [0; 5])
    = [OK; LIMITED (Some 100)] /\
  retryAtLoop [mkRate 3 10] [0] 5 = None.
Proof.
  intros Hfresh. rewrite calls_decisions. unfold storedLog. rewrite Hfresh.
  split; reflexivity.
Qed.

Lemma two_rules_stricter_governs_witness :
  map (fun outcome => body (snd outcome))
      (calls ∅ [mkRate 3 10; mkRate 1 100] "203.0.113.9" [0; 5])
    = [OK; LIMITED (Some 100)] /\
  retryAtLoop [mkRate 3 10] [0] 5 = None.
Proof.
  apply (two_rules_stricter_governs ∅ "203.0.113.9"). apply lookup_empty.
Defined.

(** ** The retry time *)

Lemma fold_max_flip_Int (zs : list Z) (a : Z) :
  fold_left (fun acc c => max c acc) (map Int zs) (Int a) = Int (fold_left Z.max zs a).
Proof.
  revert a. induction zs as [|z zs IH]; intros a; simpl; [reflexivity|].
  rewrite Z.max_comm. apply IH.
Qed.




(** ** Order of the persisted log *)

(** C5, as the code has it.  The persisted log is [now] in front of a prefix
    of the stored log, or that prefix alone.  If the stored log is newest
    first and [now] is at least every stored timestamp, the persisted log is
    newest first; it is strictly so if the stored log is and either [now] is
    above every stored timestamp or the call is answered [LIMITED]. *)
Theorem newestFirst_preserved (storage : gmap string (list Z)) (rates : list Rate)
    (key : string) (now : Z) :
  newestFirst (storedLog storage key) ->
  Forall (fun t => t <= now) (storedLog storage key) ->
  let response := fst (slidingWindow storage rates key now) in
  let persisted := storedLog (snd (slidingWindow storage rates key now)) key in
  newestFirst persisted /\
  (exists requests,
      requests `prefix_of` storedLog storage key /\
      persisted = if allowed response then now :: requests else requests) /\
  (strictlyNewestFirst (storedLog storage key) ->
   Forall (fun t => t < now) (storedLog storage key) \/ allowed response = false ->
   strictlyNewestFirst persisted).
Proof.
  intros Hsorted Hbound response persisted. subst response persisted.
  rewrite slidingWindow_decide. cbn [fst snd]. rewrite storedLog_insert.
  unfold decide. cbn [fst snd].
  set (stored := storedLog storage key) in *.
  set (requests := workingLog rates stored now).
  assert (requests `prefix_of` stored) as Hpre by apply filterUntil_prefix.
  assert (allowed (respond (retryAtLoop rates requests now) now) =
          match retryAtLoop rates requests now with None => true | Some _ => false end)
    as Hallowed by (now destruct (retryAtLoop rates requests now)).
  rewrite Hallowed.
  split; [|split].
  - destruct Hpre as [k Hk]. rewrite Hk in Hsorted, Hbound.
    apply newestFirst_app in Hsorted. apply Forall_app in Hbound.
    destruct (retryAtLoop rates requests now); simpl; [tauto|].
    apply newestFirst_cons. tauto.
  - exists requests. split; [assumption|].
    now destruct (retryAtLoop rates requests now).
  - intros Hstrict Hor. destruct Hpre as [k Hk]. rewrite Hk in Hstrict.
    apply strictlyNewestFirst_app in Hstrict.
    destruct (retryAtLoop rates requests now); simpl; [assumption|].
    destruct Hor as [Hlt|Hlt]; [|discriminate].
    apply strictlyNewestFirst_cons. split; [assumption|].
    rewrite Hk in Hlt. now apply Forall_app in Hlt.
Qed.

Lemma newestFirst_preserved_witness :
  newestFirst (storedLog (snd (slidingWindow {[ bucketOf "k" := [5; 5; 2] ]}
                                 [mkRate 3 10] "k" 5)) "k") /\
  storedLog (snd (slidingWindow {[ bucketOf "k" := [5; 5; 2] ]} [mkRate 4 10] "k" 5)) "k"
    = [5; 5; 5; 2].
Proof.
  split; [|reflexivity].
  apply (newestFirst_preserved {[ bucketOf "k" := [5; 5; 2] ]} [mkRate 3 10] "k" 5).
  - vm_compute. repeat constructor; discriminate.
  - vm_compute. repeat constructor; discriminate.
Defined.

(** C5 as stated fails for two requests admitted in the same second: the
    stored log [[5]] is strictly newest first and [now = 5] is at least every
    stored timestamp, yet the persisted log is [[5; 5]]. *)
Lemma same_second_not_strict :
  strictlyNewestFirst (storedLog {[ bucketOf "k" := [5] ]} "k") /\
  Forall (fun t => t <= 5) (storedLog {[ bucketOf "k" := [5] ]} "k") /\
  storedLog (snd (slidingWindow {[ bucketOf "k" := [5] ]} [mkRate 2 10] "k" 5)) "k"
    = [5; 5] /\
  ~ strictlyNewestFirst
      (storedLog (snd (slidingWindow {[ bucketOf "k" := [5] ]} [mkRate 2 10] "k" 5)) "k").
Proof.
  split; [vm_compute; repeat constructor|].
  split; [vm_compute; repeat constructor; discriminate|].
  split; [reflexivity|].
  change (storedLog (snd (slidingWindow {[ bucketOf "k" := [5] ]} [mkRate 2 10] "k" 5)) "k")
    with [5; 5].
  intros H. apply strictlyNewestFirst_cons in H. destruct H as [_ H].
  inversion H; lia.
Qed.

(** ** Admissions per window *)

Lemma filter_length_le {A : Type} (p q : A -> bool) (l : list A) :
  (forall x, In x l -> p x = true -> q x = true) ->
  (length (List.filter p l) <= length (List.filter q l))%nat.
Proof.
  induction l as [|x l IH]; intros Hpq; simpl; [lia|].
  assert (length (List.filter p l) <= length (List.filter q l))%nat as IH'
    by (apply IH; intros y Hy; apply Hpq; now right).
  destruct (p x) eqn:P.
  - rewrite (Hpq x (or_introl eq_refl) P). simpl. lia.
  - destruct (q x); simpl; lia.
Qed.

Lemma within_cons (from to t : Z) (log : list Z) :
  within from to (t :: log) =
    (if (from <=? t) && (t <=? to) then 1 else 0) + within from to log.
Proof.
  unfold within. simpl. destruct ((from <=? t) && (t <=? to)); simpl; lia.
Qed.

Lemma allowedWithin_cons (from to now : Z) (response : LimiterResponse)
    (outcomes : list (Z * LimiterResponse)) :
  allowedWithin from to ((now, response) :: outcomes) =
    (if allowed response && (from <=? now) && (now <=? to) then 1 else 0)
    + allowedWithin from to outcomes.
Proof.
  unfold allowedWithin. simpl.
  destruct (allowed response && (from <=? now) && (now <=? to)); simpl; lia.
Qed.

Section Admission.
Variable rates : list Rate.
Variable biggest : Z.
Hypothesis biggest_eq : biggestInterval rates = Int biggest.
Hypothesis biggest_ge : forall rate, In rate rates -> interval rate <= biggest.

(** Under [tracks], the count the code takes for a rule is the number of
    admitted requests of the whole history inside the rule's window. *)
Lemma specCount_history (history stored : list Z) (prev now : Z) (rate : Rate) :
  tracks biggest history stored prev ->
  prev <= now ->
  In rate rates ->
  tracks biggest history (workingLog rates stored now) now /\
  specCount (workingLog rates stored now) now rate =
    Z.of_nat (length (List.filter (inWindow (Int (interval rate)) now) history)).
Proof.
  intros (Hsorted & Hbound & stale & Hhist & Hstale) Hnow Hrate.
  assert (newestFirst stored) as Hstored
    by (rewrite Hhist in Hsorted; now apply newestFirst_app in Hsorted).
  unfold workingLog. rewrite biggest_eq.
  destruct (filterUntil_newestFirst stored biggest now Hstored)
    as (stale' & Hsplit & Hstale').
  set (requests := filterUntil stored (inWindow (Int biggest) now)) in *.
  assert (history = requests ++ (stale' ++ stale)) as Hhist'
    by (rewrite Hhist, Hsplit at 1; now rewrite <- app_assoc).
  assert (Forall (fun t => t + biggest < now) (stale' ++ stale)) as Hall.
  { apply Forall_app. split; [assumption|].
    weaken_Forall. }
  split.
  - split; [assumption|]. split.
    + weaken_Forall.
    + now exists (stale' ++ stale).
  - unfold specCount, specPrefix.
    change (fun timestamp => now <=? timestamp + interval rate)
      with (inWindow (Int (interval rate)) now).
    rewrite filterUntil_filter.
    + rewrite Hhist', List.filter_app.
      rewrite (filter_none _ (stale' ++ stale)); [now rewrite app_nil_r|].
      eapply Forall_impl; [eassumption|]. intros t Ht. apply inWindow_false.
      pose proof (biggest_ge rate Hrate). simpl in Ht. lia.
    + rewrite Hhist' in Hsorted. now apply newestFirst_app in Hsorted.
Qed.

(** One call keeps the invariant, with the admitted request added to the
    history. *)
Lemma decide_respectsLimits (history stored : list Z) (prev now : Z) :
  tracks biggest history stored prev ->
  respectsLimits rates history ->
  prev <= now ->
  rates <> [] ->
  let history' := unshiftNow (fst (decide rates stored now)) now history in
  tracks biggest history' (snd (decide rates stored now)) now /\
  respectsLimits rates history'.
Proof.
  intros Htracks Hresp Hnow Hne history'. subst history'.
  unfold decide. cbn [fst snd].
  set (requests := workingLog rates stored now).
  assert (tracks biggest history requests now) as Htracks'.
  { assert (exists rate, In rate rates) as [rate Hrate]
      by (destruct rates; [congruence | eexists; now left]).
    apply (specCount_history history stored prev now rate Htracks Hnow Hrate). }
  destruct (retryAtLoop rates requests now) as [at_|] eqn:Hloop; simpl.
  - split; assumption.
  - destruct Htracks' as (Hsorted & Hbound & stale & Hhist & Hstale). split.
    + split; [apply newestFirst_cons; split; assumption|].
      split; [constructor; [lia | assumption]|].
      exists stale. split; [simpl; now f_equal | assumption].
    + intros rate Hrate from. rewrite within_cons.
      destruct ((from <=? now) && (now <=? from + interval rate)) eqn:W;
        [|specialize (Hresp rate Hrate from); lia].
      apply andb_true_iff in W. destruct W as [W1 W2].
      apply Z.leb_le in W1, W2.
      pose proof (proj1 (retryAtLoop_None rates requests now) Hloop rate Hrate) as Hc.
      destruct (specCount_history history stored prev now rate Htracks Hnow Hrate)
        as [_ Heq].
      fold requests in Heq. rewrite Heq in Hc.
      assert (within from (from + interval rate) history <=
              Z.of_nat (length (List.filter (inWindow (Int (interval rate)) now) history)))
        as Hle.
      { unfold within. apply Nat2Z.inj_le, filter_length_le.
        intros t _ Ht. apply andb_true_iff in Ht. destruct Ht as [Ht _].
        apply Z.leb_le in Ht. apply inWindow_true. lia. }
      lia.
Qed.

Lemma decisions_respectLimits (times : list Z) :
  rates <> [] ->
  forall history stored prev,
    tracks biggest history stored prev ->
    respectsLimits rates history ->
    nonDecreasing times ->
    Forall (fun now => prev <= now) times ->
    forall rate, In rate rates ->
    forall from,
      within from (from + interval rate) history
      + allowedWithin from (from + interval rate) (decisions rates stored times)
      <= limit rate.
Proof.
  intros Hne.
  induction times as [|now later IH];
    intros history stored prev Htracks Hresp Hsorted Hprev rate Hrate from.
  - simpl. unfold allowedWithin. simpl. specialize (Hresp rate Hrate from). lia.
  - cbn [decisions].
    inversion Hprev as [|? ? Hnow _]; subst.
    apply StronglySorted_inv in Hsorted. destruct Hsorted as [Hsorted Hlater].
    pose proof (decide_respectsLimits history stored prev now Htracks Hresp Hnow Hne)
      as [Htracks' Hresp'].
    destruct (decide rates stored now) as [retryAt stored'] eqn:D.
    cbn [fst snd] in Htracks', Hresp'.
    specialize (IH _ _ _ Htracks' Hresp' Hsorted Hlater rate Hrate from).
    rewrite allowedWithin_cons.
    destruct retryAt as [at_|]; simpl in IH |- *.
    + lia.
    + rewrite within_cons in IH.
      destruct ((from <=? now) && (now <=? from + interval rate)); lia.
Qed.
End Admission.

(** C1.  One key, a log that starts empty, calls at non-decreasing times, a
    fixed rules list whose rules all have positive limit and interval: for
    every rule of the list and every closed window [[from, from + interval]]
    of that rule, the calls answered [OK] whose time lies in the window
    number at most the rule's limit. *)
Theorem allowed_bounded_by_limit (storage : gmap string (list Z)) (rates : list Rate)
    (key : string) (times : list Z) (rate : Rate) (from : Z) :
  storage !! bucketOf key = None ->
  nonDecreasing times ->
  (forall r, In r rates -> wellFormed r) ->
  In rate rates ->
  allowedWithin from (from + interval rate) (calls storage rates key times)
    <= limit rate.
Proof.
  intros Hfresh Hsorted Hwf Hrate.
  rewrite calls_decisions. unfold storedLog. rewrite Hfresh. simpl.
  assert (rates <> []) as Hne by (intros ->; destruct Hrate).
  destruct (biggestInterval_spec rates Hne) as (biggest & Hb & _ & Hle).
  destruct times as [|first later].
  { unfold allowedWithin. simpl. destruct (Hwf rate Hrate). lia. }
  pose proof (decisions_respectLimits rates biggest Hb Hle (first :: later) Hne
                [] [] first) as H.
  change (within from (from + interval rate) []) with 0 in H.
  assert (tracks biggest [] [] first) as Htracks.
  { split; [constructor|]. split; [constructor|].
    exists []. split; [reflexivity | constructor]. }
  apply (fun Hr Hp => H Htracks Hr Hsorted Hp rate Hrate from).
  - intros r Hr f. unfold within. simpl. destruct (Hwf r Hr). lia.
  - constructor; [lia|]. apply StronglySorted_inv in Hsorted.
    destruct Hsorted as [_ Hall]. exact Hall.
Qed.

Lemma allowed_bounded_by_limit_witness :
  allowedWithin 3 (3 + 10)
    (calls ∅ [mkRate 2 10; mkRate 3 60] "k" [0; 3; 3; 4; 13; 13; 14; 70]) <= 2 /\
  map (fun outcome => allowed (snd outcome))
    (calls ∅ [mkRate 2 10; mkRate 3 60] "k" [0; 3; 3; 4; 13; 13; 14; 70])
    = [true; true; false; false; true; false; false; true].
Proof.
  split; [|reflexivity].
  apply (allowed_bounded_by_limit ∅ [mkRate 2 10; mkRate 3 60] "k"
           [0; 3; 3; 4; 13; 13; 14; 70] (mkRate 2 10) 3).
  - apply lookup_empty.
  - repeat constructor; lia.
  - intros r [<-|[<-|[]]]; unfold wellFormed; simpl; lia.
  - now left.
Defined.

(** ** The wire format: rates survive the round trip *)

Lemma decimalPrefix_string_of_uint (d : Decimal.uint) :
  decimalPrefix (NilEmpty.string_of_uint d) = d.
Proof. induction d; simpl; now f_equal. Qed.

Lemma string_of_uint_digits (d : Decimal.uint) :
  Forall (fun c => isDigit c = true) (list_ascii_of_string (NilEmpty.string_of_uint d)).
Proof. induction d; simpl; constructor; auto. Qed.

Lemma magnitude_string_of_uint (d : Decimal.uint) :
  d <> Decimal.Nil ->
  magnitude (NilEmpty.string_of_uint d) = Some (Z.of_uint d).
Proof.
  intros Hd.
  assert (magnitude (NilEmpty.string_of_uint d) =
          match decimalPrefix (NilEmpty.string_of_uint d) with
          | Decimal.Nil => None
          | u => Some (Z.of_uint u)
          end) as ->.
  { destruct d as [|d|d|d|d|d|d|d|d|d|d]; try reflexivity.
    destruct d; reflexivity. }
  rewrite decimalPrefix_string_of_uint. now destruct d.
Qed.

Lemma parseInt_digits (d : Decimal.uint) :
  d <> Decimal.Nil ->
  parseInt (NilEmpty.string_of_uint d) = Int (Z.of_uint d) /\
  parseInt (String "-" (NilEmpty.string_of_uint d)) = Int (- Z.of_uint d).
Proof.
  intros Hd. pose proof (magnitude_string_of_uint d Hd) as Hm.
  split.
  - assert (parseInt (NilEmpty.string_of_uint d) =
            match magnitude (NilEmpty.string_of_uint d) with
            | Some m => Int (1 * m)
            | None => NaN
            end) as ->
      by (destruct d; try reflexivity; congruence).
    rewrite Hm. f_equal; lia.
  - assert (parseInt (String "-" (NilEmpty.string_of_uint d)) =
            match magnitude (NilEmpty.string_of_uint d) with
            | Some m => Int (-1 * m)
            | None => NaN
            end) as -> by reflexivity.
    rewrite Hm. f_equal; lia.
Qed.

Lemma parseInt_showNumber (n : Z) : parseInt (showNumber n) = Int n.
Proof.
  unfold showNumber. destruct n as [|p|p]; [reflexivity| |].
  - simpl. pose proof (Unsigned.to_uint_nonnil p) as Hp.
    assert (NilZero.string_of_uint (Pos.to_uint p) =
            NilEmpty.string_of_uint (Pos.to_uint p)) as ->
      by (unfold NilZero.string_of_uint; now destruct (Pos.to_uint p)).
    destruct (parseInt_digits _ Hp) as [-> _].
    unfold Z.of_uint. now rewrite Unsigned.of_to.
  - simpl. pose proof (Unsigned.to_uint_nonnil p) as Hp.
    assert (NilZero.string_of_uint (Pos.to_uint p) =
            NilEmpty.string_of_uint (Pos.to_uint p)) as ->
      by (unfold NilZero.string_of_uint; now destruct (Pos.to_uint p)).
    destruct (parseInt_digits _ Hp) as [_ ->].
    unfold Z.of_uint. now rewrite Unsigned.of_to.
Qed.

Lemma showNumber_chars (n : Z) :
  Forall (fun c => c <> ":"%char) (list_ascii_of_string (showNumber n)).
Proof.
  assert (forall d, Forall (fun c => c <> ":"%char)
                      (list_ascii_of_string (NilEmpty.string_of_uint d))) as Hd.
  { intros d. eapply Forall_impl; [apply string_of_uint_digits|].
    intros c Hc ->. discriminate. }
  assert (forall d, Forall (fun c => c <> ":"%char)
                      (list_ascii_of_string (NilZero.string_of_uint d))) as Hz.
  { intros d. destruct d; try apply Hd. repeat constructor. discriminate. }
  unfold showNumber. destruct (Z.to_int n); simpl; [apply Hz|].
  constructor; [discriminate | apply Hz].
Qed.

Lemma split_none (sep : ascii) (s : string) :
  Forall (fun c => c <> sep) (list_ascii_of_string s) -> split sep s = [s].
Proof.
  induction s as [|c s IH]; simpl; intros Hall; [reflexivity|].
  inversion Hall as [|? ? Hc Hrest]; subst.
  destruct (Ascii.eqb_spec c sep); [contradiction|].
  now rewrite IH.
Qed.

Lemma split_append (sep : ascii) (front back : string) :
  Forall (fun c => c <> sep) (list_ascii_of_string front) ->
  split sep (front ++ String sep back) = front :: split sep back.
Proof.
  induction front as [|c s IH]; simpl; intros Hall.
  - now rewrite Ascii.eqb_refl.
  - inversion Hall as [|? ? Hc Hrest]; subst.
    destruct (Ascii.eqb_spec c sep); [contradiction|].
    now rewrite IH.
Qed.

Lemma decodeRate_encodeRate (rate : Rate) : decodeRate (encodeRate rate) = Some rate.
Proof.
  unfold decodeRate, encodeRate.
  change (showNumber (limit rate) ++ ":" ++ showNumber (interval rate))%string
    with (showNumber (limit rate) ++ String ":" (showNumber (interval rate)))%string.
  rewrite split_append by apply showNumber_chars.
  rewrite split_none by apply showNumber_chars.
  simpl. rewrite !parseInt_showNumber. now destruct rate.
Qed.

Lemma decode_encode_rates (rates : list Rate) :
  mapM decodeRate (map encodeRate rates) = Some rates.
Proof.
  induction rates as [|rate rates IH]; [reflexivity|].
  simpl. rewrite decodeRate_encodeRate. simpl. now rewrite IH.
Qed.

(** The durable object decides on exactly the rules the coordinator was
    given, at [Math.floor(Date.now() / 1000)]. *)
Lemma fetch_encoded (storage : gmap string (list Z)) (key : string)
    (rates : list Rate) (ms : Z) :
  fetch storage (mkUrl key (map encodeRate rates)) ms =
    Some (slidingWindow storage rates key (floorSeconds ms)).
Proof. unfold fetch. simpl. now rewrite decode_encode_rates. Qed.

(** ** The coordinator *)

Section Coordinator.
Context {C : Type} `{ResponseCache C}.
Implicit Types (namespace : gmap string (gmap string (list Z))) (cache : C).

(** A cache hit: the durable object is not contacted, nothing is written. *)
Lemma rateLimit_hit namespace cache (name key : string) (rates : list Rate)
    (clock : Clock) (response : LimiterResponse) :
  cacheMatch cache (mkUrl key (map encodeRate rates)) (atMatch clock) = Some response ->
  rateLimit namespace cache name key rates clock =
    Some (reply response (atReply clock), namespace, cache).
Proof.
  intros Hhit. unfold rateLimit. rewrite Hhit. simpl.
  unfold reply. now destruct (body response).
Qed.

(** A cache miss: the durable object named [name] decides on [rates] as
    they are, and its storage is written back. *)
Lemma rateLimit_miss namespace cache (name key : string) (rates : list Rate)
    (clock : Clock) :
  cacheMatch cache (mkUrl key (map encodeRate rates)) (atMatch clock) = None ->
  let url := mkUrl key (map encodeRate rates) in
  let decided :=
    slidingWindow (nullish (namespace !! name) ∅) rates key
      (floorSeconds (atFetch clock)) in
  rateLimit namespace cache name key rates clock =
    Some (reply (fst decided) (atReply clock),
          <[name := snd decided]> namespace,
          match body (fst decided), cacheControl (fst decided) with
          | LIMITED _, Some _ => cachePut cache url (fst decided) (atPut clock)
          | _, _ => cache
          end).
Proof.
  intros Hmiss url decided. subst url decided.
  unfold rateLimit. rewrite Hmiss, fetch_encoded.
  destruct (slidingWindow _ rates key _) as [response storage]. simpl.
  unfold reply. destruct (body response); [reflexivity|].
  now destruct (cacheControl response).
Qed.
End Coordinator.

(** ** Retry-After *)

Lemma reply_Some (response : LimiterResponse) (ms : Z) (rejection : Rejection) :
  reply response ms = Some rejection ->
  exists retryAt,
    body response = LIMITED retryAt /\
    status rejection = 429 /\
    retryAfter rejection = showNumber (nullish retryAt 0 - ceilSeconds ms).
Proof.
  unfold reply. destruct (body response) as [|retryAt]; [discriminate|].
  intros [= <-]. now exists retryAt.
Qed.

(** C7, as the code has it.  Whether the limiter response comes from the
    cache or from the durable object, a rejection carries [retryAt] minus the
    time at which the reply is built, in seconds rounded up
    ([Math.ceil(Date.now() / 1000)]); on a cache hit the durable object is
    not contacted.  With the freshness cache: once a call has been answered
    [LIMITED] with [retryAt = now + 5], [now] being the durable object's time
    in seconds rounded down, a later call for the same key and rules that
    finds the entry fresh, and whose reply is built when the clock rounded up
    reads [now + 2], is answered from the cache with [Retry-After: 3]. *)
Theorem retryAfter_at_reply_time :
  (forall (C : Type) (cacheOps : ResponseCache C)
          (namespace namespace' : gmap string (gmap string (list Z)))
          (cache cache' : C) (name key : string) (rates : list Rate)
          (clock : Clock) (rejection : Rejection),
      rateLimit namespace cache name key rates clock
        = Some (Some rejection, namespace', cache') ->
      exists response retryAt,
        body response = LIMITED retryAt /\
        status rejection = 429 /\
        retryAfter rejection
          = showNumber (nullish retryAt 0 - ceilSeconds (atReply clock)) /\
        (cacheMatch cache (mkUrl key (map encodeRate rates)) (atMatch clock)
           = Some response /\ namespace' = namespace /\ cache' = cache
         \/
         cacheMatch cache (mkUrl key (map encodeRate rates)) (atMatch clock) = None /\
         (response, namespace') =
           (fst (slidingWindow (nullish (namespace !! name) ∅) rates key
                   (floorSeconds (atFetch clock))),
            <[name := snd (slidingWindow (nullish (namespace !! name) ∅) rates key
                             (floorSeconds (atFetch clock)))]> namespace))) /\
  (forall (namespace : gmap string (gmap string (list Z)))
          (cache : gmap Url CacheEntry) (name key : string) (rates : list Rate)
          (first second : Clock),
      let now := floorSeconds (atFetch first) in
      cacheMatch cache (mkUrl key (map encodeRate rates)) (atMatch first) = None ->
      body (fst (slidingWindow (nullish (namespace !! name) ∅) rates key now))
        = LIMITED (Some (now + 5)) ->
      atMatch second < atPut first + 5000 ->
      ceilSeconds (atReply second) = now + 2 ->
      exists rejection namespace' cache',
        rateLimit namespace cache name key rates first
          = Some (Some rejection, namespace', cache') /\
        rateLimit namespace' cache' name key rates second
          = Some (Some (mkRejection 429 "3"), namespace', cache')).
Proof.
  split.
  - intros C cacheOps namespace namespace' cache cache' name key rates clock rejection.
    destruct (cacheMatch cache (mkUrl key (map encodeRate rates)) (atMatch clock))
      as [response|] eqn:M.
    + rewrite (rateLimit_hit _ _ _ _ _ _ _ M). intros [= Hreply <- <-].
      destruct (reply_Some _ _ _ Hreply) as (retryAt & Hbody & Hstatus & Hafter).
      exists response, retryAt. auto 10.
    + rewrite (rateLimit_miss _ _ _ _ _ _ M). intros [= Hreply <- _].
      destruct (reply_Some _ _ _ Hreply) as (retryAt & Hbody & Hstatus & Hafter).
      eexists _, retryAt. split; [eassumption|]. auto 10.
  - intros namespace cache name key rates first second now Hmiss Hbody Hfresh Hceil.
    rewrite (rateLimit_miss _ _ _ _ _ _ Hmiss). fold now.
    set (decided := slidingWindow (nullish (namespace !! name) ∅) rates key now) in *.
    assert (cacheControl (fst decided) = Some (Int 5)) as Hcc.
    { subst decided. rewrite slidingWindow_decide in Hbody |- *. cbn [fst] in Hbody |- *.
      destruct (fst (decide rates _ now)) as [at_|]; [|discriminate].
      simpl in Hbody |- *. destruct at_ as [| |z]; try discriminate.
      simpl in Hbody. injection Hbody as ->. simpl. do 2 f_equal. lia. }
    rewrite Hbody, Hcc. unfold reply. rewrite Hbody.
    eexists _, _, _. split; [reflexivity|].
    erewrite rateLimit_hit.
    + unfold reply. rewrite Hbody. simpl. rewrite Hceil.
      replace (now + 5 - (now + 2)) with 3 by lia. reflexivity.
    + cbn [cacheMatch cachePut TtlCache]. rewrite lookup_insert_eq.
      unfold fresh. cbn [entryResponse entryTime]. rewrite Hcc.
      destruct (Z.ltb_spec (atMatch second) (atPut first + 1000 * 5)); [reflexivity | lia].
Qed.

Lemma retryAfter_at_reply_time_witness :
  rateLimit {[ "203.0.113.9" := {[ bucketOf "login" := [1000] ]} ]}
      (∅ : gmap Url CacheEntry) "203.0.113.9" "login" [mkRate 1 10] (instant 1005000)
    = Some (Some (mkRejection 429 "5"),
            {[ "203.0.113.9" := {[ bucketOf "login" := [1000] ]} ]},
            {[ mkUrl "login" ["1:10"] :=
                 mkEntry (mkResponse (LIMITED (Some 1010)) (Some (Int 5))) 1005000 ]}) /\
  exists rejection namespace' cache',
    rateLimit {[ "203.0.113.9" := {[ bucketOf "login" := [1000] ]} ]}
        (∅ : gmap Url CacheEntry) "203.0.113.9" "login" [mkRate 1 10] (instant 1005000)
      = Some (Some rejection, namespace', cache') /\
    rateLimit namespace' cache' "203.0.113.9" "login" [mkRate 1 10] (instant 1007000)
      = Some (Some (mkRejection 429 "3"), namespace', cache').
Proof.
  split; [vm_compute; reflexivity|].
  apply (proj2 retryAfter_at_reply_time
           {[ "203.0.113.9" := {[ bucketOf "login" := [1000] ]} ]} ∅
           "203.0.113.9" "login" [mkRate 1 10] (instant 1005000) (instant 1007000)).
  - reflexivity.
  - vm_compute. reflexivity.
  - simpl. lia.
  - reflexivity.
Defined.

(** C7 as stated fails when the clock is not on a whole second: the durable
    object rounds its time down, the coordinator rounds its own up.  A call
    at 1005.5 s is decided at [now = 1005] and answered [LIMITED] with
    [retryAt = 1010 = now + 5], which is cached; the call 2 seconds later, at
    1007.5 s, is served from the cache, without a write to the durable
    object, with [Retry-After: 2]. *)
Lemma retryAfter_two_seconds_later :
  let namespace : gmap string (gmap string (list Z)) :=
    {[ "203.0.113.9" := {[ bucketOf "login" := [1000] ]} ]} in
  let cached : gmap Url CacheEntry :=
    {[ mkUrl "login" ["1:10"] :=
         mkEntry (mkResponse (LIMITED (Some (floorSeconds 1005500 + 5))) (Some (Int 5)))
                 1005500 ]} in
  rateLimit namespace (∅ : gmap Url CacheEntry) "203.0.113.9" "login" [mkRate 1 10]
      (instant 1005500)
    = Some (Some (mkRejection 429 "4"), namespace, cached) /\
  rateLimit namespace cached "203.0.113.9" "login" [mkRate 1 10]
      (instant (1005500 + 2000))
    = Some (Some (mkRejection 429 "2"), namespace, cached) /\
  mkRejection 429 "2" <> mkRejection 429 "3".
Proof.
  split; [vm_compute; reflexivity|].
  split; [vm_compute; reflexivity|].
  discriminate.
Qed.

(** ** Rules that are not well formed *)







(** * Further properties of the source *)

(** ** The two scans *)

(** X1.  [countUntil] and [filterUntil] stop at the same place: the count is
    the length of what [filterUntil] keeps and [last] is its last item.  The
    count is between 0 and the length of the array, and it is 0 exactly when
    [last] is [undefined]. *)
Theorem countUntil_matches_filterUntil (T : Type) (predicate : T -> bool)
    (array : list T) :
  count (countUntil array predicate)
    = Z.of_nat (length (filterUntil array predicate)) /\
  last (countUntil array predicate) = list.last (filterUntil array predicate) /\
  0 <= count (countUntil array predicate) <= Z.of_nat (length array) /\
  (count (countUntil array predicate) = 0 <-> last (countUntil array predicate) = None).
Proof.
  rewrite countUntil_count, countUntil_last.
  split; [reflexivity|]. split; [reflexivity|]. split.
  - pose proof (prefix_length _ _ (filterUntil_prefix predicate array)). lia.
  - rewrite last_None. destruct (filterUntil array predicate); simpl; split;
      intros; (congruence || lia).
Qed.

(** X2.  On a log that is newest first the early exit loses nothing: the
    scan for a window keeps exactly the entries [t] of the whole log with
    [t + span >= now], and the count is their number. *)
Theorem scan_is_filter_when_newestFirst (log : list Z) (span now : Z) :
  newestFirst log ->
  filterUntil log (inWindow (Int span) now)
    = List.filter (fun t => now <=? t + span) log /\
  count (countUntil log (inWindow (Int span) now))
    = Z.of_nat (length (List.filter (fun t => now <=? t + span) log)).
Proof.
  intros Hsorted. rewrite countUntil_count.
  rewrite (filterUntil_filter log span now Hsorted). split; reflexivity.
Qed.

(** On the sorted log the scan sees both entries in the window; with the same
    entries out of order it stops at the first stale one. *)
Lemma scan_is_filter_when_newestFirst_witness :
  filterUntil [9; 7; 2] (inWindow (Int 5) 12) = [9; 7] /\
  filterUntil [9; 2; 7] (inWindow (Int 5) 12) = [9].
Proof.
  split; [|reflexivity].
  rewrite (proj1 (scan_is_filter_when_newestFirst [9; 7; 2] 5 12
                    ltac:(repeat constructor; lia))).
  reflexivity.
Defined.

(** ** The wire format *)

Lemma encodeRate_inj (rate rate' : Rate) :
  encodeRate rate = encodeRate rate' -> rate = rate'.
Proof.
  intros Heq. assert (Some rate = Some rate') as [= ->]; [|reflexivity].
  now rewrite <- !decodeRate_encodeRate, Heq.
Qed.

Lemma map_encodeRate_inj (rates rates' : list Rate) :
  map encodeRate rates = map encodeRate rates' -> rates = rates'.
Proof.
  revert rates'. induction rates as [|rate rates IH]; intros [|rate' rates']; simpl;
    try congruence.
  intros [= Hhead Htail]. f_equal; [now apply encodeRate_inj | now apply IH].
Qed.


(** X4.  The request descriptor, which is also the cache key, identifies the
    key and the rules in their order: two calls build the same URL exactly
    when they have the same key and the same list of rules. *)
Theorem descriptor_identifies_call (key key' : string) (rates rates' : list Rate) :
  mkUrl key (map encodeRate rates) = mkUrl key' (map encodeRate rates')
  <-> key = key' /\ rates = rates'.
Proof.
  split.
  - intros [= Hkey Hrates]. split; [assumption | now apply map_encodeRate_inj].
  - intros [-> ->]. reflexivity.
Qed.

Lemma split_two (front back tail : string) :
  Forall (fun c => c <> ":"%char) (list_ascii_of_string front) ->
  Forall (fun c => c <> ":"%char) (list_ascii_of_string back) ->
  take 2 (split ":" (front ++ String ":" (back ++ String ":" tail)))
    = [front; back].
Proof.
  intros Hfront Hback. rewrite split_append by assumption.
  rewrite split_append by assumption. reflexivity.
Qed.

(** X5.  The durable object reads only the first two pieces of an [r]
    parameter: whatever follows a second colon is dropped by
    [split(":", 2)]. *)
Theorem decodeRate_ignores_extra_pieces (rate : Rate) (tail : string) :
  decodeRate (encodeRate rate ++ String ":" tail) = Some rate.
Proof.
  assert (forall a b c : string, ((a ++ b) ++ c = a ++ (b ++ c))%string) as Hassoc.
  { intros a b c. induction a as [|x a IH]; [reflexivity|].
    change (String x ((a ++ b) ++ c) = String x (a ++ (b ++ c)))%string.
    now f_equal. }
  unfold decodeRate, encodeRate. rewrite Hassoc.
  change (":" ++ showNumber (interval rate))%string
    with (String ":" (showNumber (interval rate))).
  change (String ":" (showNumber (interval rate)) ++ String ":" tail)%string
    with (String ":" (showNumber (interval rate) ++ String ":" tail))%string.
  rewrite split_two by apply showNumber_chars.
  simpl. rewrite !parseInt_showNumber. now destruct rate.
Qed.

(** ** The order of the rules *)

Lemma max_comm (a b : number) : max a b = max b a.
Proof. destruct a, b; simpl; try reflexivity. now rewrite Z.max_comm. Qed.

Lemma max_assoc (a b c : number) : max a (max b c) = max (max a b) c.
Proof. destruct a, b, c; simpl; try reflexivity. now rewrite Z.max_assoc. Qed.

Lemma fold_left_swap_permutation {A B : Type} (f : A -> B -> A) (xs ys : list B) :
  (forall a x y, f (f a x) y = f (f a y) x) ->
  Permutation xs ys ->
  forall a, fold_left f xs a = fold_left f ys a.
Proof.
  intros Hswap Hperm. induction Hperm as [|x xs ys _ IH|x y xs|xs ys zs _ IH1 _ IH2];
    intros a; simpl.
  - reflexivity.
  - apply IH.
  - now rewrite Hswap.
  - now rewrite IH1.
Qed.

Lemma biggestInterval_permutation (rates rates' : list Rate) :
  Permutation rates rates' -> biggestInterval rates = biggestInterval rates'.
Proof.
  intros Hperm. unfold biggestInterval, Math_max.
  apply fold_left_swap_permutation; [|now apply Permutation_map].
  intros a x y. now rewrite <- !max_assoc, (max_comm x y).
Qed.

Lemma retryAtStep_swap (requests : list Z) (now : Z) (retryAt : option number)
    (rate rate' : Rate) :
  retryAtStep requests now (retryAtStep requests now retryAt rate) rate' =
  retryAtStep requests now (retryAtStep requests now retryAt rate') rate.
Proof.
  rewrite !retryAtStep_eq.
  destruct (specViolated requests now rate), (specViolated requests now rate');
    simpl; try reflexivity.
  f_equal. rewrite !max_assoc. f_equal. apply max_comm.
Qed.

Lemma retryAtLoop_permutation (rates rates' : list Rate) (requests : list Z) (now : Z) :
  Permutation rates rates' ->
  retryAtLoop rates requests now = retryAtLoop rates' requests now.
Proof.
  intros Hperm. unfold retryAtLoop.
  apply fold_left_swap_permutation; [|assumption].
  intros a x y. apply retryAtStep_swap.
Qed.

(** X6.  The decision does not depend on the order of the rules: for two
    lists with the same rules in any order, [slidingWindow] returns the same
    response and writes the same storage. *)
Theorem rule_order_irrelevant (storage : gmap string (list Z))
    (rates rates' : list Rate) (key : string) (now : Z) :
  Permutation rates rates' ->
  slidingWindow storage rates key now = slidingWindow storage rates' key now.
Proof.
  intros Hperm. rewrite !slidingWindow_decide. unfold decide, workingLog.
  rewrite (biggestInterval_permutation rates rates' Hperm). cbn [fst snd].
  now rewrite (retryAtLoop_permutation rates rates' _ now Hperm).
Qed.

Lemma rule_order_irrelevant_witness :
  slidingWindow {[ bucketOf "k" := [8; 0] ]} [mkRate 1 5; mkRate 2 100; mkRate 0 3] "k" 9
  = slidingWindow {[ bucketOf "k" := [8; 0] ]} [mkRate 0 3; mkRate 2 100; mkRate 1 5] "k" 9.
Proof.
  apply rule_order_irrelevant.
  apply (perm_trans (l' := [mkRate 2 100; mkRate 1 5; mkRate 0 3])).
  - apply perm_swap.
  - apply (perm_trans (l' := [mkRate 2 100; mkRate 0 3; mkRate 1 5])).
    + apply perm_skip, perm_swap.
    + apply perm_swap.
Defined.

(** ** Keys of one durable object *)

Lemma append_cancel (front a b : string) :
  (front ++ a = front ++ b)%string -> a = b.
Proof.
  induction front as [|c front IH]; intros Heq; [exact Heq|].
  change (String c (front ++ a) = String c (front ++ b))%string in Heq.
  injection Heq as Heq. now apply IH.
Qed.

Lemma bucketOf_inj (key key' : string) : bucketOf key = bucketOf key' -> key = key'.
Proof. apply append_cancel. Qed.

Lemma storedLog_insert_ne (storage : gmap string (list Z)) (key key' : string)
    (log : list Z) :
  key <> key' -> storedLog (<[bucketOf key := log]> storage) key' = storedLog storage key'.
Proof.
  intros Hne. unfold storedLog. rewrite lookup_insert_ne; [reflexivity|].
  intros Heq. apply bucketOf_inj in Heq. congruence.
Qed.

(** X7.  Distinct keys of one durable object do not interfere: two calls for
    different keys give the same two responses and the same final storage in
    either order. *)
Theorem distinct_keys_commute (storage : gmap string (list Z))
    (rates rates' : list Rate) (key key' : string) (now now' : Z) :
  key <> key' ->
  let first := slidingWindow storage rates key now in
  let second := slidingWindow (snd first) rates' key' now' in
  let first' := slidingWindow storage rates' key' now' in
  let second' := slidingWindow (snd first') rates key now in
  fst first = fst second' /\ fst second = fst first' /\ snd second = snd second'.
Proof.
  intros Hne first second first' second'. subst first second first' second'.
  rewrite !slidingWindow_decide. cbn [fst snd].
  rewrite !storedLog_insert_ne by congruence.
  split; [reflexivity|]. split; [reflexivity|].
  apply insert_insert_ne. intros Heq. apply bucketOf_inj in Heq. congruence.
Qed.

Lemma distinct_keys_commute_witness :
  fst (slidingWindow (snd (slidingWindow ∅ [mkRate 1 10] "login" 5)) [mkRate 1 10] "signup" 6)
  = fst (slidingWindow ∅ [mkRate 1 10] "signup" 6).
Proof.
  apply (distinct_keys_commute ∅ [mkRate 1 10] [mkRate 1 10] "login" "signup" 5 6).
  discriminate.
Defined.

(** ** The size of the log *)

Lemma specCount_workingLog_biggest (rates : list Rate) (stored : list Z) (now : Z)
    (rate : Rate) :
  biggestInterval rates = Int (interval rate) ->
  specCount (workingLog rates stored now) now rate
    = Z.of_nat (length (workingLog rates stored now)).
Proof.
  intros Hb. unfold specCount, specPrefix, workingLog. rewrite Hb.
  change (fun timestamp => now <=? timestamp + interval rate)
    with (inWindow (Int (interval rate)) now).
  now rewrite filterUntil_idem.
Qed.

Lemma biggestInterval_of (rates : list Rate) (rate : Rate) :
  In rate rates ->
  (forall r, In r rates -> interval r <= interval rate) ->
  biggestInterval rates = Int (interval rate).
Proof.
  intros Hin Hmax.
  destruct (biggestInterval_spec rates) as (biggest & Hb & (r & Hr & Heq) & Hle).
  { intros ->. destruct Hin. }
  rewrite Hb. f_equal. specialize (Hle rate Hin). specialize (Hmax r Hr). lia.
Qed.

Lemma decide_length (rates : list Rate) (stored : list Z) (now : Z) (rate : Rate) :
  In rate rates ->
  (forall r, In r rates -> interval r <= interval rate) ->
  Z.of_nat (length stored) <= limit rate ->
  Z.of_nat (length (snd (decide rates stored now))) <= limit rate.
Proof.
  intros Hin Hmax Hlen. unfold decide. cbn [snd].
  pose proof (prefix_length _ _ (filterUntil_prefix
                (inWindow (biggestInterval rates) now) stored)) as Hpre.
  fold (workingLog rates stored now) in Hpre.
  destruct (retryAtLoop rates (workingLog rates stored now) now) eqn:Hloop; simpl.
  - lia.
  - pose proof (proj1 (retryAtLoop_None _ _ _) Hloop rate Hin) as Hc.
    rewrite (specCount_workingLog_biggest rates stored now rate
               (biggestInterval_of rates rate Hin Hmax)) in Hc.
    lia.
Qed.

(** X8.  The stored log stays small: if [rate] is a rule with the largest
    interval and the log holds at most [rate.limit] entries, it still does
    after any sequence of calls, at any times and whatever their outcomes. *)
Theorem log_length_bounded (storage : gmap string (list Z)) (rates : list Rate)
    (key : string) (times : list Z) (rate : Rate) :
  In rate rates ->
  (forall r, In r rates -> interval r <= interval rate) ->
  Z.of_nat (length (storedLog storage key)) <= limit rate ->
  Z.of_nat (length (storedLog (storageAfter storage rates key times) key)) <= limit rate.
Proof.
  intros Hin Hmax. revert storage.
  induction times as [|now later IH]; intros storage Hlen; [exact Hlen|].
  cbn [storageAfter]. apply IH.
  rewrite slidingWindow_decide. cbn [snd]. rewrite storedLog_insert.
  now apply decide_length.
Qed.

Lemma log_length_bounded_witness :
  Z.of_nat (length (storedLog
     (storageAfter ∅ [mkRate 5 10; mkRate 2 60] "k" [0; 1; 1; 30; 61; 61; 200; 100]) "k"))
  <= 2.
Proof.
  apply (log_length_bounded ∅ [mkRate 5 10; mkRate 2 60] "k"
           [0; 1; 1; 30; 61; 61; 200; 100] (mkRate 2 60)).
  - right. now left.
  - intros r [<-|[<-|[]]]; simpl; lia.
  - vm_compute. discriminate.
Defined.

(** ** Rejected calls *)

(** X9.  A rejected call consumes nothing: repeating it at the same time
    gives the same response and leaves the storage as the first call left
    it. *)
Theorem rejected_call_idempotent (storage : gmap string (list Z)) (rates : list Rate)
    (key : string) (now : Z) :
  allowed (fst (slidingWindow storage rates key now)) = false ->
  slidingWindow (snd (slidingWindow storage rates key now)) rates key now
    = slidingWindow storage rates key now.
Proof.
  rewrite !slidingWindow_decide. cbn [fst snd]. rewrite storedLog_insert.
  unfold decide. cbn [fst snd].
  set (requests := workingLog rates (storedLog storage key) now).
  destruct (retryAtLoop rates requests now) as [at_|] eqn:Hloop; [|discriminate].
  intros _. simpl.
  assert (workingLog rates requests now = requests) as ->
    by apply filterUntil_idem.
  rewrite Hloop. simpl. now rewrite insert_insert_eq.
Qed.

Lemma rejected_call_idempotent_witness :
  slidingWindow (snd (slidingWindow {[ bucketOf "k" := [8; 0] ]} [mkRate 1 5] "k" 9))
      [mkRate 1 5] "k" 9
  = slidingWindow {[ bucketOf "k" := [8; 0] ]} [mkRate 1 5] "k" 9.
Proof.
  apply (rejected_call_idempotent {[ bucketOf "k" := [8; 0] ]} [mkRate 1 5] "k" 9).
  reflexivity.
Defined.

(** ** The retry time of a rejection *)

(** With limits of at least 1 the loop works on integers throughout: every
    violated rule has a boundary inside its window, and [retryAt] is the
    largest of 0 and the candidates. *)
Lemma retryAtLoop_integers (rates : list Rate) (requests : list Z) (now : Z) :
  (forall rate, In rate rates -> 1 <= limit rate) ->
  let violated := List.filter (specViolated requests now) rates in
  let candidates :=
    map (fun rate => interval rate + nullish (specBoundary requests now rate) 0)
        violated in
  (forall rate, In rate violated ->
     exists boundary,
       specBoundary requests now rate = Some boundary /\
       In boundary requests /\
       boundary + interval rate >= now) /\
  retryAtLoop rates requests now =
    match violated with
    | [] => None
    | _ => Some (Int (fold_left Z.max candidates 0))
    end.
Proof.
  intros Hlimits violated candidates. subst candidates.
  assert (forall rate, In rate violated ->
            exists boundary,
              specBoundary requests now rate = Some boundary /\
              In boundary requests /\
              boundary + interval rate >= now /\
              candidate requests now rate = Int (interval rate + boundary)) as Hb.
  { intros rate Hin. apply filter_In in Hin. destruct Hin as [Hin Hv].
    unfold specViolated in Hv. apply Z.leb_le in Hv. rewrite <- counted_count in Hv.
    destruct (violated_boundary requests now rate (Hlimits rate Hin) Hv)
      as (boundary & Hlast & Hmem & Hge & Hc).
    exists boundary. rewrite <- counted_last. auto. }
  split.
  - intros rate Hin. destruct (Hb rate Hin) as (boundary & ? & ? & ? & _). eauto.
  - rewrite retryAtLoop_closed. fold violated. clearbody violated.
    destruct violated as [|v vs]; [reflexivity|].
    f_equal. rewrite <- fold_max_flip_Int. f_equal.
    rewrite map_map. apply map_ext_in. intros rate Hin.
    destruct (Hb rate Hin) as (boundary & -> & _ & _ & ->). reflexivity.
Qed.

Lemma newestFirst_last (log : list Z) (oldest : Z) :
  newestFirst log -> list.last log = Some oldest -> Forall (fun t => oldest <= t) log.
Proof.
  induction log as [|t log IH]; intros Hsorted Hlast; [constructor|].
  apply newestFirst_cons in Hsorted. destruct Hsorted as [Hsorted Hall].
  destruct log as [|u log].
  - injection Hlast as ->. repeat constructor. lia.
  - change (list.last (u :: log) = Some oldest) in Hlast.
    pose proof (IH Hsorted Hlast) as Hrest.
    constructor; [|assumption].
    inversion Hall; subst. inversion Hrest; subst. lia.
Qed.

Lemma filter_filter_implied {A : Type} (p q : A -> bool) (l : list A) :
  (forall x, q x = true -> p x = true) ->
  List.filter q (List.filter p l) = List.filter q l.
Proof.
  intros Himp. induction l as [|x l IH]; simpl; [reflexivity|].
  destruct (p x) eqn:P; simpl.
  - now rewrite IH.
  - destruct (q x) eqn:Q; [|assumption].
    rewrite (Himp x Q) in P. discriminate.
Qed.

Lemma filter_agree {A : Type} (p q : A -> bool) (l : list A) :
  (forall x, In x l -> p x = q x) -> List.filter p l = List.filter q l.
Proof.
  induction l as [|x l IH]; intros Hpq; simpl; [reflexivity|].
  rewrite (Hpq x (or_introl eq_refl)), IH; [reflexivity|].
  intros y Hy. apply Hpq. now right.
Qed.

(** On a log that is newest first, the prefix a rule counts at [now] is
    counted unchanged by a later call, made no later than the rule's own
    candidate retry time, after the log was trimmed for that call. *)
Lemma specPrefix_until_candidate (rates : list Rate) (requests : list Z)
    (now now' boundary : Z) (rate : Rate) :
  newestFirst requests ->
  In rate rates ->
  specBoundary requests now rate = Some boundary ->
  now <= now' <= boundary + interval rate ->
  specPrefix (workingLog rates requests now') now' rate = specPrefix requests now rate.
Proof.
  intros Hsorted Hrate Hlast Hnow.
  assert (rates <> []) as Hne by (intros ->; destruct Hrate).
  destruct (biggestInterval_spec rates Hne) as (biggest & Hb & _ & Hle).
  specialize (Hle rate Hrate).
  unfold specBoundary in Hlast. unfold specPrefix in *. unfold workingLog. rewrite Hb.
  change (fun timestamp => now <=? timestamp + interval rate)
    with (inWindow (Int (interval rate)) now) in *.
  change (fun timestamp => now' <=? timestamp + interval rate)
    with (inWindow (Int (interval rate)) now').
  rewrite (filterUntil_filter requests (interval rate) now Hsorted) in *.
  rewrite (filterUntil_filter requests biggest now' Hsorted).
  assert (newestFirst (List.filter (inWindow (Int biggest) now') requests)) as Hsorted'.
  { rewrite <- (filterUntil_filter requests biggest now' Hsorted).
    destruct (filterUntil_newestFirst requests biggest now' Hsorted) as (stale & Heq & _).
    rewrite Heq in Hsorted. now apply newestFirst_app in Hsorted. }
  rewrite (filterUntil_filter _ (interval rate) now' Hsorted').
  rewrite filter_filter_implied.
  2:{ intros t Ht. apply inWindow_true in Ht. apply inWindow_true. lia. }
  assert (newestFirst (List.filter (inWindow (Int (interval rate)) now) requests))
    as Hcounted.
  { rewrite <- (filterUntil_filter requests (interval rate) now Hsorted).
    destruct (filterUntil_newestFirst requests (interval rate) now Hsorted)
      as (stale & Heq & _).
    rewrite Heq in Hsorted. now apply newestFirst_app in Hsorted. }
  pose proof (newestFirst_last _ _ Hcounted Hlast) as Hall.
  rewrite List.Forall_forall in Hall.
  apply filter_agree. intros t Ht.
  destruct (inWindow (Int (interval rate)) now t) eqn:E.
  - apply inWindow_true.
    assert (boundary <= t) by (apply Hall, filter_In; auto). lia.
  - apply inWindow_false in E. apply inWindow_false. lia.
Qed.

Lemma body_respond_LIMITED (retryAt : option number) (now at_ : Z) :
  body (respond retryAt now) = LIMITED (Some at_) -> retryAt = Some (Int at_).
Proof.
  destruct retryAt as [[| |z]|]; simpl; try discriminate.
  now intros [= ->].
Qed.

(** A rejection holds through its [retryAt], and [retryAt] does not
    decrease meanwhile. *)
Lemma decide_limited_until (rates : list Rate) (stored : list Z)
    (now now' retryAt : Z) :
  newestFirst stored ->
  (forall rate, In rate rates -> 1 <= limit rate) ->
  0 <= now ->
  fst (decide rates stored now) = Some (Int retryAt) ->
  now <= now' <= retryAt ->
  exists retryAt',
    fst (decide rates (snd (decide rates stored now)) now') = Some (Int retryAt') /\
    retryAt <= retryAt'.
Proof.
  intros Hsorted Hlimits Hpos Hbody Hnow.
  unfold decide in *. cbn [fst snd] in *.
  set (requests := workingLog rates stored now) in *.
  rewrite Hbody. cbn [unshiftNow].
  assert (newestFirst requests) as Hreq.
  { destruct (filterUntil_prefix (inWindow (biggestInterval rates) now) stored)
      as [k Hk].
    fold (workingLog rates stored now) in Hk. fold requests in Hk.
    rewrite Hk in Hsorted. now apply newestFirst_app in Hsorted. }
  destruct (retryAtLoop_integers rates requests now Hlimits) as [Hb Hloop].
  rewrite Hbody in Hloop.
  destruct (List.filter (specViolated requests now) rates) as [|v vs] eqn:F;
    [discriminate|].
  assert (retryAt = fold_left Z.max
            (map (fun rate => interval rate + nullish (specBoundary requests now rate) 0)
                 (v :: vs)) 0) as Hmax by congruence.
  clear Hloop. rewrite <- F in *.
  set (violated := List.filter (specViolated requests now) rates) in *.
  set (candidates := map (fun rate => interval rate +
                            nullish (specBoundary requests now rate) 0) violated) in *.
  (* the rule whose candidate is [retryAt] *)
  assert (exists rate boundary,
             In rate violated /\ specBoundary requests now rate = Some boundary /\
             retryAt = boundary + interval rate) as (rate & boundary & Hin & Hlast & Heq).
  { assert (In retryAt candidates) as Hmem.
    { rewrite Hmax. destruct (fold_Zmax_attained candidates 0) as [E|Hmem];
        [|assumption].
      assert (In v violated) as Hv by (rewrite F; now left).
      destruct (Hb v Hv) as (b & Hsb & _ & Hge).
      assert (In (interval v + b) candidates) as Hc.
      { unfold candidates. apply in_map_iff. exists v. now rewrite Hsb. }
      pose proof (fold_Zmax_ge_elem candidates 0 _ Hc).
      replace (fold_left Z.max candidates 0) with (interval v + b) by lia.
      assumption. }
    unfold candidates in Hmem. apply in_map_iff in Hmem.
    destruct Hmem as (rate & Heq & Hin).
    destruct (Hb rate Hin) as (b & Hsb & _ & _).
    exists rate, b. rewrite Hsb in Heq. simpl in Heq. split; [assumption|].
    split; [assumption | lia]. }
  apply filter_In in Hin. destruct Hin as [Hrate Hviolated].
  pose proof (specPrefix_until_candidate rates requests now now' boundary rate
                Hreq Hrate Hlast ltac:(lia)) as Hsame.
  set (requests' := workingLog rates requests now') in *.
  destruct (retryAtLoop_integers rates requests' now' Hlimits) as [_ Hloop'].
  assert (In rate (List.filter (specViolated requests' now') rates)) as Hin'.
  { apply filter_In. split; [assumption|].
    unfold specViolated, specCount in *. now rewrite Hsame. }
  destruct (List.filter (specViolated requests' now') rates) as [|v' vs'] eqn:F';
    [destruct Hin'|].
  rewrite <- F' in *. rewrite Hloop'. eexists. split; [reflexivity|].
  apply (fold_Zmax_ge_elem _ 0 retryAt). apply in_map_iff.
  exists rate. split; [|assumption].
  unfold specBoundary in *. rewrite Hsame, Hlast. simpl. lia.
Qed.

(** X10.  A rejection holds through its [retryAt]: on a log that is newest
    first, with limits of at least 1 and [now >= 0], if a call at [now] is
    answered [LIMITED] with [retryAt], then a call at any [now'] from [now]
    to [retryAt] inclusive is answered [LIMITED] again, with a [retryAt] that
    is not smaller. *)
Theorem rejection_holds_until_retryAt (storage : gmap string (list Z))
    (rates : list Rate) (key : string) (now now' retryAt : Z) :
  newestFirst (storedLog storage key) ->
  (forall rate, In rate rates -> 1 <= limit rate) ->
  0 <= now ->
  body (fst (slidingWindow storage rates key now)) = LIMITED (Some retryAt) ->
  now <= now' <= retryAt ->
  exists retryAt',
    body (fst (slidingWindow (snd (slidingWindow storage rates key now)) rates key now'))
      = LIMITED (Some retryAt') /\
    retryAt <= retryAt'.
Proof.
  intros Hsorted Hlimits Hpos Hbody Hnow.
  rewrite !slidingWindow_decide in *. cbn [fst snd] in *. rewrite storedLog_insert.
  apply body_respond_LIMITED in Hbody.
  destruct (decide_limited_until rates (storedLog storage key) now now' retryAt
              Hsorted Hlimits Hpos Hbody Hnow) as (retryAt' & Hagain & Hle).
  exists retryAt'. rewrite Hagain. split; [reflexivity | assumption].
Qed.

Lemma rejection_holds_until_retryAt_witness :
  body (fst (slidingWindow {[ bucketOf "k" := [8; 0] ]} [mkRate 1 9; mkRate 2 12] "k" 9))
    = LIMITED (Some 12) /\
  body (fst (slidingWindow {[ bucketOf "k" := [8; 0] ]} [mkRate 1 9; mkRate 2 12] "k" 12))
    = LIMITED (Some 17) /\
  exists retryAt',
    body (fst (slidingWindow
                 (snd (slidingWindow {[ bucketOf "k" := [8; 0] ]}
                         [mkRate 1 9; mkRate 2 12] "k" 9))
                 [mkRate 1 9; mkRate 2 12] "k" 12))
      = LIMITED (Some retryAt') /\
    12 <= retryAt'.
Proof.
  split; [reflexivity|]. split; [reflexivity|].
  apply (rejection_holds_until_retryAt {[ bucketOf "k" := [8; 0] ]}
           [mkRate 1 9; mkRate 2 12] "k" 9 12 12).
  - vm_compute. repeat constructor; discriminate.
  - intros rate [<-|[<-|[]]]; simpl; lia.
  - lia.
  - reflexivity.
  - lia.
Defined.

(** ** The freshness lifetime of a rejection *)

Lemma fold_Zmax_le (zs : list Z) (a bound : Z) :
  a <= bound -> (forall z, In z zs -> z <= bound) -> fold_left Z.max zs a <= bound.
Proof.
  revert a. induction zs as [|z zs IH]; intros a Ha Hall; simpl; [assumption|].
  apply IH.
  - specialize (Hall z (or_introl eq_refl)). lia.
  - intros y Hy. apply Hall. now right.
Qed.

Lemma decide_limited_bounds (rates : list Rate) (stored : list Z) (now : Z) :
  (forall rate, In rate rates -> 1 <= limit rate) ->
  0 <= now ->
  Forall (fun t => t <= now) stored ->
  fst (decide rates stored now) <> None ->
  exists retryAt biggest,
    fst (decide rates stored now) = Some (Int retryAt) /\
    biggestInterval rates = Int biggest /\
    now <= retryAt <= now + biggest.
Proof.
  intros Hlimits Hpos Hbound Hlimited. unfold decide in *. cbn [fst] in *.
  set (requests := workingLog rates stored now) in *.
  assert (Forall (fun t => t <= now) requests) as Hreq.
  { destruct (filterUntil_prefix (inWindow (biggestInterval rates) now) stored)
      as [k Hk].
    fold (workingLog rates stored now) in Hk. fold requests in Hk.
    rewrite Hk in Hbound. now apply Forall_app in Hbound. }
  rewrite List.Forall_forall in Hreq.
  destruct (retryAtLoop_integers rates requests now Hlimits) as [Hb Hloop].
  destruct (List.filter (specViolated requests now) rates) as [|v vs] eqn:F;
    [congruence|].
  rewrite <- F in *.
  set (violated := List.filter (specViolated requests now) rates) in *.
  assert (In v violated) as Hv by (rewrite F; now left).
  assert (In v rates) as Hvr by (apply filter_In in Hv; tauto).
  assert (rates <> []) as Hne by (intros E; rewrite E in Hvr; destruct Hvr).
  destruct (biggestInterval_spec rates Hne) as (biggest & Hbig & _ & Hle).
  eexists _, biggest. split; [exact Hloop|]. split; [assumption|].
  destruct (Hb v Hv) as (b & Hsb & Hmem & Hge).
  pose proof (Hreq b Hmem). pose proof (Hle v Hvr). split.
  - assert (interval v + b <= fold_left Z.max
             (map (fun rate => interval rate + nullish (specBoundary requests now rate) 0)
                  violated) 0) as Hmax.
    { apply fold_Zmax_ge_elem, in_map_iff. exists v. now rewrite Hsb. }
    lia.
  - apply fold_Zmax_le; [lia|].
    intros z Hz. apply in_map_iff in Hz. destruct Hz as (rate & <- & Hin).
    destruct (Hb rate Hin) as (b' & -> & Hmem' & _). simpl.
    pose proof (Hreq b' Hmem'). apply filter_In in Hin.
    pose proof (Hle rate (proj1 Hin)). lia.
Qed.

(** X11.  The freshness lifetime of a rejection is sane: with limits of at
    least 1, [now >= 0] and no stored timestamp in the future, a [LIMITED]
    response carries an integer [retryAt] with [now <= retryAt], and its
    [max-age] is [retryAt - now], between 0 and the biggest interval. *)
Theorem limited_maxAge_bounds (storage : gmap string (list Z)) (rates : list Rate)
    (key : string) (now : Z) :
  (forall rate, In rate rates -> 1 <= limit rate) ->
  0 <= now ->
  Forall (fun t => t <= now) (storedLog storage key) ->
  allowed (fst (slidingWindow storage rates key now)) = false ->
  exists retryAt biggest,
    fst (slidingWindow storage rates key now)
      = mkResponse (LIMITED (Some retryAt)) (Some (Int (retryAt - now))) /\
    biggestInterval rates = Int biggest /\
    0 <= retryAt - now <= biggest.
Proof.
  intros Hlimits Hpos Hbound Hlimited.
  rewrite slidingWindow_decide in *. cbn [fst] in *.
  destruct (decide_limited_bounds rates (storedLog storage key) now Hlimits Hpos Hbound)
    as (retryAt & biggest & Hloop & Hbig & Hrange).
  { intros Hnone. rewrite Hnone in Hlimited. discriminate. }
  exists retryAt, biggest. rewrite Hloop. simpl.
  split; [reflexivity|]. split; [assumption | lia].
Qed.

Lemma limited_maxAge_bounds_witness :
  exists retryAt biggest,
    fst (slidingWindow {[ bucketOf "k" := [8; 0] ]} [mkRate 1 9; mkRate 2 12] "k" 9)
      = mkResponse (LIMITED (Some retryAt)) (Some (Int (retryAt - 9))) /\
    biggestInterval [mkRate 1 9; mkRate 2 12] = Int biggest /\
    0 <= retryAt - 9 <= biggest.
Proof.
  apply (limited_maxAge_bounds {[ bucketOf "k" := [8; 0] ]} [mkRate 1 9; mkRate 2 12] "k" 9).
  - intros rate [<-|[<-|[]]]; simpl; lia.
  - lia.
  - vm_compute. repeat constructor; discriminate.
  - reflexivity.
Defined.

(** ** What a call to the coordinator can change *)

Lemma rateLimit_cases (namespace : gmap string (gmap string (list Z)))
    (cache : gmap Url CacheEntry) (name key : string) (rates : list Rate)
    (clock : Clock) :
  let url := mkUrl key (map encodeRate rates) in
  let decided := slidingWindow (nullish (namespace !! name) ∅) rates key
                   (floorSeconds (atFetch clock)) in
  (exists entry,
      cache !! url = Some entry /\ fresh entry (atMatch clock) = true /\
      rateLimit namespace cache name key rates clock
        = Some (reply (entryResponse entry) (atReply clock), namespace, cache))
  \/
  (cacheMatch cache url (atMatch clock) = None /\
   rateLimit namespace cache name key rates clock
     = Some (reply (fst decided) (atReply clock),
             <[name := snd decided]> namespace,
             match body (fst decided), cacheControl (fst decided) with
             | LIMITED _, Some _ => <[url := mkEntry (fst decided) (atPut clock)]> cache
             | _, _ => cache
             end)).
Proof.
  intros url decided.
  destruct (cacheMatch cache url (atMatch clock)) as [response|] eqn:M.
  - left. cbn [cacheMatch TtlCache] in M.
    destruct (cache !! url) as [entry|] eqn:L; [|discriminate].
    destruct (fresh entry (atMatch clock)) eqn:Hf; [|discriminate].
    injection M as <-. exists entry. split; [reflexivity|]. split; [assumption|].
    apply rateLimit_hit. cbn [cacheMatch TtlCache]. fold url. now rewrite L, Hf.
  - right. split; [reflexivity|]. now rewrite (rateLimit_miss _ _ _ _ _ _ M).
Qed.

(** X12.  A call to [rateLimit] for durable object [name] and [key] changes
    nothing else: every other durable object, every other key's log inside
    the same object, and every cache entry under another URL are as
    before. *)
Theorem rateLimit_frame (namespace namespace' : gmap string (gmap string (list Z)))
    (cache cache' : gmap Url CacheEntry) (name key : string) (rates : list Rate)
    (clock : Clock) (limited : option Rejection) :
  rateLimit namespace cache name key rates clock = Some (limited, namespace', cache') ->
  (forall other, other <> name -> namespace' !! other = namespace !! other) /\
  (forall other, other <> key ->
     storedLog (nullish (namespace' !! name) ∅) other
       = storedLog (nullish (namespace !! name) ∅) other) /\
  (forall url, url <> mkUrl key (map encodeRate rates) -> cache' !! url = cache !! url).
Proof.
  destruct (rateLimit_cases namespace cache name key rates clock)
    as [(entry & _ & _ & ->)|[_ ->]]; intros [= _ <- <-].
  - repeat split; reflexivity.
  - split; [|split].
    + intros other Hne. now rewrite lookup_insert_ne.
    + intros other Hne. rewrite lookup_insert_eq. cbn [nullish].
      apply storedLog_insert_ne. congruence.
    + intros url Hne.
      destruct (body _); [reflexivity|].
      destruct (cacheControl _); [|reflexivity].
      now rewrite lookup_insert_ne.
Qed.

Lemma rateLimit_frame_witness :
  exists namespace',
    rateLimit {[ "198.51.100.7" := {[ bucketOf "login" := [4] ]} ]}
        (∅ : gmap Url CacheEntry) "203.0.113.9" "login" [mkRate 1 10] (instant 5000)
      = Some (None, namespace', ∅) /\
    namespace' !! "198.51.100.7"%string = Some {[ bucketOf "login" := [4] ]} /\
    namespace' !! "203.0.113.9"%string = Some {[ bucketOf "login" := [5] ]}.
Proof.
  assert (rateLimit {[ "198.51.100.7" := {[ bucketOf "login" := [4] ]} ]}
            (∅ : gmap Url CacheEntry) "203.0.113.9" "login" [mkRate 1 10] (instant 5000)
          = Some (None,
                  <[ "203.0.113.9"%string := {[ bucketOf "login" := [5] ]} ]>
                    {[ "198.51.100.7"%string := {[ bucketOf "login" := [4] ]} ]},
                  ∅)) as Hcall by (vm_compute; reflexivity).
  eexists. split; [exact Hcall|].
  destruct (rateLimit_frame _ _ _ _ _ _ _ _ _ Hcall) as (Hother & _ & _).
  split; [now rewrite Hother | reflexivity].
Defined.

(** ** What the cache holds *)

Lemma reply_None (response : LimiterResponse) (ms : Z) :
  reply response ms = None <-> allowed response = true.
Proof. unfold reply, allowed. destruct (body response); split; congruence. Qed.

Lemma onlyLimited_step (namespace namespace' : gmap string (gmap string (list Z)))
    (cache cache' : gmap Url CacheEntry) (name key : string) (rates : list Rate)
    (clock : Clock) (limited : option Rejection) :
  onlyLimited cache ->
  rateLimit namespace cache name key rates clock = Some (limited, namespace', cache') ->
  onlyLimited cache' /\
  (limited = None ->
   cache' = cache /\
   cacheMatch cache (mkUrl key (map encodeRate rates)) (atMatch clock) = None /\
   namespace' = <[name := snd (slidingWindow (nullish (namespace !! name) ∅) rates key
                                  (floorSeconds (atFetch clock)))]> namespace /\
   allowed (fst (slidingWindow (nullish (namespace !! name) ∅) rates key
                   (floorSeconds (atFetch clock)))) = true).
Proof.
  intros Hinv.
  destruct (rateLimit_cases namespace cache name key rates clock)
    as [(entry & Hentry & _ & ->)|[Hmiss ->]]; intros [= <- <- <-].
  - split; [assumption|]. intros Hnone. apply reply_None in Hnone.
    rewrite (Hinv _ _ Hentry) in Hnone. discriminate.
  - split.
    + destruct (body _) eqn:Hbody; [assumption|].
      destruct (cacheControl _); [|assumption].
      intros url entry Hlookup.
      destruct (Url_eq_dec (mkUrl key (map encodeRate rates)) url) as [<-|Hne].
      * rewrite lookup_insert_eq in Hlookup. injection Hlookup as <-.
        unfold allowed. cbn [entryResponse]. now rewrite Hbody.
      * rewrite lookup_insert_ne in Hlookup by assumption. eauto.
    + intros Hnone. apply reply_None in Hnone.
      split; [|repeat split; assumption].
      unfold allowed in Hnone. now destruct (body _).
Qed.

(** X13.  Only rejections are cached.  If every cache entry holds a
    [LIMITED] response before a call, the same is true after it; and a call
    that is let through ([null]) was not answered from the cache, left the
    cache as it was, and was recorded by the durable object, whose log for
    the key now starts with the time of the call. *)
Theorem allowed_never_cached (namespace namespace' : gmap string (gmap string (list Z)))
    (cache cache' : gmap Url CacheEntry) (name key : string) (rates : list Rate)
    (clock : Clock) (limited : option Rejection) :
  onlyLimited cache ->
  rateLimit namespace cache name key rates clock = Some (limited, namespace', cache') ->
  onlyLimited cache' /\
  (limited = None ->
   cache' = cache /\
   cacheMatch cache (mkUrl key (map encodeRate rates)) (atMatch clock) = None /\
   exists requests,
     storedLog (nullish (namespace' !! name) ∅) key
       = floorSeconds (atFetch clock) :: requests).
Proof.
  intros Hinv Hcall.
  destruct (onlyLimited_step _ _ _ _ _ _ _ _ _ Hinv Hcall) as [Hinv' Hpassed].
  split; [assumption|]. intros Hnone.
  destruct (Hpassed Hnone) as (Hcache & Hmiss & -> & Hallowed).
  split; [assumption|]. split; [assumption|].
  rewrite lookup_insert_eq. cbn [nullish].
  rewrite slidingWindow_decide in *. cbn [fst snd] in *. rewrite storedLog_insert.
  apply allowed_respond in Hallowed. unfold decide in *. cbn [fst snd] in *.
  rewrite Hallowed. simpl. eauto.
Qed.

Lemma onlyLimited_empty : onlyLimited ∅.
Proof. intros url entry Hlookup. rewrite lookup_empty in Hlookup. discriminate. Qed.

Lemma allowed_never_cached_witness :
  exists namespace' requests,
    rateLimit {[ "203.0.113.9"%string := {[ bucketOf "login" := [4] ]} ]}
        (∅ : gmap Url CacheEntry) "203.0.113.9" "login" [mkRate 2 10] (instant 5999)
      = Some (None, namespace', ∅) /\
    storedLog (nullish (namespace' !! "203.0.113.9"%string) ∅) "login"
      = floorSeconds 5999 :: requests.
Proof.
  assert (rateLimit {[ "203.0.113.9"%string := {[ bucketOf "login" := [4] ]} ]}
            (∅ : gmap Url CacheEntry) "203.0.113.9" "login" [mkRate 2 10] (instant 5999)
          = Some (None,
                  <[ "203.0.113.9"%string := {[ bucketOf "login" := [5; 4] ]} ]>
                    {[ "203.0.113.9"%string := {[ bucketOf "login" := [4] ]} ]},
                  ∅)) as Hcall by (vm_compute; reflexivity).
  destruct (allowed_never_cached _ _ _ _ _ _ _ _ _ onlyLimited_empty Hcall)
    as [_ Hpassed].
  destruct (Hpassed eq_refl) as (_ & _ & requests & Hlog).
  eexists _, requests. split; [exact Hcall | exact Hlog].
Defined.

(** X14.  The cache is keyed by key and rules, not by durable object: once a
    rejection for [key] and [rates] decided by the object [name] is cached,
    a call for the same key and rules under any other name is rejected from
    the cache while the entry is fresh, and that other object is not
    contacted. *)
Theorem cached_rejection_crosses_names
    (namespace : gmap string (gmap string (list Z))) (cache : gmap Url CacheEntry)
    (name name' key : string) (rates : list Rate) (first second : Clock)
    (retryAt : option Z) (maxAge : Z) :
  cacheMatch cache (mkUrl key (map encodeRate rates)) (atMatch first) = None ->
  fst (slidingWindow (nullish (namespace !! name) ∅) rates key
         (floorSeconds (atFetch first)))
    = mkResponse (LIMITED retryAt) (Some (Int maxAge)) ->
  atMatch second < atPut first + 1000 * maxAge ->
  exists rejection rejection' namespace' cache',
    rateLimit namespace cache name key rates first
      = Some (Some rejection, namespace', cache') /\
    rateLimit namespace' cache' name' key rates second
      = Some (Some rejection', namespace', cache').
Proof.
  intros Hmiss Hdecided Hfresh.
  rewrite (rateLimit_miss _ _ _ _ _ _ Hmiss). rewrite Hdecided. cbn [body cacheControl].
  unfold reply at 1. cbn [body].
  eexists _, _, _, _. split; [reflexivity|].
  rewrite (rateLimit_hit _ _ _ _ _ _ (mkResponse (LIMITED retryAt) (Some (Int maxAge)))).
  - unfold reply. cbn [body]. reflexivity.
  - cbn [cacheMatch cachePut TtlCache]. rewrite lookup_insert_eq.
    unfold fresh. cbn [entryResponse entryTime cacheControl].
    destruct (Z.ltb_spec (atMatch second) (atPut first + 1000 * maxAge));
      [reflexivity | lia].
Qed.

Lemma cached_rejection_crosses_names_witness :
  exists rejection rejection' namespace' cache',
    rateLimit {[ "203.0.113.9"%string := {[ bucketOf "login" := [1000] ]} ]}
        (∅ : gmap Url CacheEntry) "203.0.113.9" "login" [mkRate 1 10] (instant 1005000)
      = Some (Some rejection, namespace', cache') /\
    rateLimit namespace' cache' "198.51.100.7" "login" [mkRate 1 10] (instant 1007000)
      = Some (Some rejection', namespace', cache').
Proof.
  apply (cached_rejection_crosses_names
           {[ "203.0.113.9"%string := {[ bucketOf "login" := [1000] ]} ]} ∅
           "203.0.113.9" "198.51.100.7" "login" [mkRate 1 10]
           (instant 1005000) (instant 1007000) (Some 1010) 5).
  - reflexivity.
  - vm_compute. reflexivity.
  - simpl. lia.
Defined.

(** ** Seconds *)

Lemma floorSeconds_spec (ms : Z) :
  1000 * floorSeconds ms <= ms < 1000 * (floorSeconds ms + 1).
Proof.
  unfold floorSeconds.
  pose proof (Z.div_mod ms 1000 ltac:(lia)).
  pose proof (Z.mod_pos_bound ms 1000 ltac:(lia)). lia.
Qed.

Lemma ceilSeconds_spec (ms : Z) :
  1000 * (ceilSeconds ms - 1) < ms <= 1000 * ceilSeconds ms.
Proof.
  unfold ceilSeconds.
  pose proof (Z.div_mod (- ms) 1000 ltac:(lia)).
  pose proof (Z.mod_pos_bound (- ms) 1000 ltac:(lia)). lia.
Qed.

Lemma floorSeconds_mono (ms ms' : Z) : ms <= ms' -> floorSeconds ms <= floorSeconds ms'.
Proof.
  intros H. pose proof (floorSeconds_spec ms). pose proof (floorSeconds_spec ms'). lia.
Qed.

(** ** The cache against the durable object *)

(** X15.  A cached rejection does not outlive the decision behind it,
    provided the deferred [cache.put] lands within the second in which the
    durable object read its clock.  On a log that is newest first and with
    limits of at least 1: if a call misses the cache and is answered
    [LIMITED] with [retryAt], then at every later instant at which the entry
    it stored is still served, the durable object, had it been asked, would
    have answered [LIMITED] too. *)
Theorem cached_rejection_sound (namespace : gmap string (gmap string (list Z)))
    (cache : gmap Url CacheEntry) (name key : string) (rates : list Rate)
    (first : Clock) (retryAt ms : Z) :
  let storage := nullish (namespace !! name) ∅ in
  let now := floorSeconds (atFetch first) in
  let url := mkUrl key (map encodeRate rates) in
  newestFirst (storedLog storage key) ->
  (forall rate, In rate rates -> 1 <= limit rate) ->
  0 <= atFetch first ->
  cacheMatch cache url (atMatch first) = None ->
  body (fst (slidingWindow storage rates key now)) = LIMITED (Some retryAt) ->
  atPut first < 1000 * (now + 1) ->
  atFetch first <= ms ->
  exists rejection namespace' cache',
    rateLimit namespace cache name key rates first
      = Some (Some rejection, namespace', cache') /\
    (is_Some (cacheMatch cache' url ms) ->
     allowed (fst (slidingWindow (nullish (namespace' !! name) ∅) rates key
                     (floorSeconds ms))) = false).
Proof.
  intros storage now url Hsorted Hlimits Hpos Hmiss Hbody Hput Hlater.
  rewrite (rateLimit_miss _ _ _ _ _ _ Hmiss). fold storage now url.
  rewrite slidingWindow_decide in *. cbn [fst snd] in *.
  pose proof (body_respond_LIMITED _ _ _ Hbody) as Hloop.
  rewrite Hloop. cbn [respond body cacheControl jsonNumber sub].
  unfold reply. cbn [body].
  eexists _, _, _. split; [reflexivity|].
  intros [response Hhit]. cbn [cacheMatch cachePut TtlCache] in Hhit.
  rewrite lookup_insert_eq in Hhit. unfold fresh in Hhit.
  cbn [entryResponse entryTime cacheControl] in Hhit.
  destruct (Z.ltb_spec ms (atPut first + 1000 * (retryAt - now))) as [Hfresh|];
    [|discriminate].
  rewrite lookup_insert_eq. cbn [nullish].
  rewrite slidingWindow_decide. cbn [fst]. rewrite storedLog_insert.
  assert (0 <= now) as Hnow0.
  { pose proof (floorSeconds_spec (atFetch first)). fold now in H. lia. }
  assert (now <= floorSeconds ms <= retryAt) as Hwindow.
  { split; [now apply floorSeconds_mono|].
    pose proof (floorSeconds_spec ms). lia. }
  destruct (decide_limited_until rates (storedLog storage key) now (floorSeconds ms)
              retryAt Hsorted Hlimits Hnow0 Hloop Hwindow) as (retryAt' & Hagain & _).
  now rewrite Hagain.
Qed.

Lemma cached_rejection_sound_witness :
  exists rejection namespace' cache',
    rateLimit {[ "203.0.113.9"%string := {[ bucketOf "login" := [1000] ]} ]}
        (∅ : gmap Url CacheEntry) "203.0.113.9" "login" [mkRate 1 10]
        (mkClock 1005100 1005200 1005900 1005950)
      = Some (Some rejection, namespace', cache') /\
    (is_Some (cacheMatch cache' (mkUrl "login" (map encodeRate [mkRate 1 10])) 1010800) ->
     allowed (fst (slidingWindow (nullish (namespace' !! "203.0.113.9"%string) ∅)
                     [mkRate 1 10] "login" (floorSeconds 1010800))) = false).
Proof.
  apply (cached_rejection_sound
           {[ "203.0.113.9"%string := {[ bucketOf "login" := [1000] ]} ]} ∅
           "203.0.113.9" "login" [mkRate 1 10]
           (mkClock 1005100 1005200 1005900 1005950) 1010 1010800).
  - vm_compute. repeat constructor.
  - intros rate [<-|[]]; simpl; lia.
  - simpl. lia.
  - reflexivity.
  - vm_compute. reflexivity.
  - vm_compute. reflexivity.
  - simpl. lia.
Defined.

(** ** The [Retry-After] header of a fresh decision *)

(** X16.  When nothing passes between the durable object's reading of the
    clock and the coordinator's (one instant [ms >= 0] for the whole call),
    the limits are at least 1 and no stored timestamp is in the future, a
    rejection that was decided by the durable object carries
    [Retry-After = max-age] if [ms] is a whole second and [max-age - 1]
    otherwise; it is never below -1, and -1 does occur. *)
Theorem retryAfter_of_fresh_decision
    (namespace namespace' : gmap string (gmap string (list Z)))
    (cache cache' : gmap Url CacheEntry) (name key : string) (rates : list Rate)
    (ms : Z) (rejection : Rejection) :
  let decided := slidingWindow (nullish (namespace !! name) ∅) rates key
                   (floorSeconds ms) in
  (forall rate, In rate rates -> 1 <= limit rate) ->
  0 <= ms ->
  Forall (fun t => t <= floorSeconds ms) (storedLog (nullish (namespace !! name) ∅) key) ->
  cacheMatch cache (mkUrl key (map encodeRate rates)) ms = None ->
  rateLimit namespace cache name key rates (instant ms)
    = Some (Some rejection, namespace', cache') ->
  exists maxAge,
    cacheControl (fst decided) = Some (Int maxAge) /\
    0 <= maxAge /\
    retryAfter rejection
      = showNumber (if ms mod 1000 =? 0 then maxAge else maxAge - 1).
Proof.
  intros decided Hlimits Hpos Hbound Hmiss.
  rewrite (rateLimit_miss namespace cache name key rates (instant ms) Hmiss).
  cbn [instant atFetch atReply].
  fold decided. intros Hcall.
  assert (reply (fst decided) ms = Some rejection) as Hreply by congruence.
  clear Hcall.
  destruct (reply_Some _ _ _ Hreply) as (at_ & Hbody & _ & Hafter).
  assert (allowed (fst decided) = false) as Hlimited
    by (unfold allowed; now rewrite Hbody).
  assert (0 <= floorSeconds ms) as Hnow0
    by (pose proof (floorSeconds_spec ms); lia).
  subst decided. rewrite slidingWindow_decide in *. cbn [fst] in *.
  destruct (decide_limited_bounds rates _ (floorSeconds ms) Hlimits Hnow0 Hbound)
    as (retryAt & biggest & Hloop & _ & Hrange).
  { intros Hnone. rewrite Hnone in Hlimited. discriminate. }
  rewrite Hloop in *. cbn [respond body cacheControl jsonNumber sub] in *.
  injection Hbody as <-. cbn [nullish] in Hafter.
  exists (retryAt - floorSeconds ms). split; [reflexivity|]. split; [lia|].
  rewrite Hafter. f_equal.
  pose proof (floorSeconds_spec ms). pose proof (ceilSeconds_spec ms).
  pose proof (Z.div_mod ms 1000 ltac:(lia)) as Hdm.
  pose proof (Z.mod_pos_bound ms 1000 ltac:(lia)).
  unfold floorSeconds in *.
  destruct (Z.eqb_spec (ms mod 1000) 0); lia.
Qed.

Lemma retryAfter_of_fresh_decision_witness :
  exists rejection namespace' cache',
    rateLimit {[ "203.0.113.9"%string := {[ bucketOf "login" := [1; 0] ]} ]}
        (∅ : gmap Url CacheEntry) "203.0.113.9" "login" [mkRate 2 10] (instant 10500)
      = Some (Some rejection, namespace', cache') /\
    retryAfter rejection = "-1"%string.
Proof.
  assert (rateLimit {[ "203.0.113.9"%string := {[ bucketOf "login" := [1; 0] ]} ]}
            (∅ : gmap Url CacheEntry) "203.0.113.9" "login" [mkRate 2 10] (instant 10500)
          = Some (Some (mkRejection 429 "-1"),
                  {[ "203.0.113.9"%string := {[ bucketOf "login" := [1; 0] ]} ]},
                  {[ mkUrl "login" ["2:10"%string] :=
                       mkEntry (mkResponse (LIMITED (Some 10)) (Some (Int 0))) 10500 ]}))
    as Hcall by (vm_compute; reflexivity).
  eexists _, _, _. split; [exact Hcall|].
  destruct (retryAfter_of_fresh_decision
              {[ "203.0.113.9"%string := {[ bucketOf "login" := [1; 0] ]} ]} _
              ∅ _ "203.0.113.9" "login" [mkRate 2 10] 10500 _
              ltac:(intros rate [<-|[]]; simpl; lia) ltac:(lia)
              ltac:(vm_compute; repeat constructor; discriminate)
              ltac:(reflexivity) Hcall) as (maxAge & Hcc & _ & Hafter).
  vm_compute in Hcc. injection Hcc as <-. exact Hafter.
Defined.

(** ** Admissions through the coordinator *)

Lemma passedWithin_cons (from to now : Z) (passed : bool) (outcomes : list (Z * bool)) :
  passedWithin from to ((now, passed) :: outcomes) =
    (if passed && (from <=? now) && (now <=? to) then 1 else 0)
    + passedWithin from to outcomes.
Proof.
  unfold passedWithin. simpl.
  destruct (passed && (from <=? now) && (now <=? to)); simpl; lia.
Qed.

Lemma coordinatorCalls_respectLimits (rates : list Rate) (biggest : Z)
    (name key : string) (clocks : list Clock) :
  biggestInterval rates = Int biggest ->
  (forall rate, In rate rates -> interval rate <= biggest) ->
  rates <> [] ->
  forall (namespace : gmap string (gmap string (list Z))) (cache : gmap Url CacheEntry)
         (history : list Z) (prev : Z),
    tracks biggest history (storedLog (nullish (namespace !! name) ∅) key) prev ->
    respectsLimits rates history ->
    onlyLimited cache ->
    nonDecreasing (map (fun clock => floorSeconds (atFetch clock)) clocks) ->
    Forall (fun clock => prev <= floorSeconds (atFetch clock)) clocks ->
    length (coordinatorCalls namespace cache name key rates clocks) = length clocks /\
    forall rate, In rate rates ->
    forall from,
      within from (from + interval rate) history
      + passedWithin from (from + interval rate)
          (coordinatorCalls namespace cache name key rates clocks)
      <= limit rate.
Proof.
  intros Hb Hle Hne.
  induction clocks as [|clock later IH];
    intros namespace cache history prev Htracks Hresp Hinv Hsorted Hprev.
  - split; [reflexivity|]. intros rate Hrate from.
    unfold passedWithin. simpl. specialize (Hresp rate Hrate from). lia.
  - cbn [coordinatorCalls].
    inversion Hprev as [|? ? Hnow Hprev']; subst.
    cbn [map] in Hsorted. apply StronglySorted_inv in Hsorted.
    destruct Hsorted as [Hsorted Hlater].
    destruct (rateLimit namespace cache name key rates clock)
      as [[[limited namespace'] cache']|] eqn:Hcall.
    2:{ destruct (rateLimit_cases namespace cache name key rates clock)
          as [(entry & _ & _ & Heq)|[_ Heq]]; congruence. }
    destruct (onlyLimited_step _ _ _ _ _ _ _ _ _ Hinv Hcall) as [Hinv' Hpassed].
    destruct limited as [rejection|].
    + (* rejected: the durable object's log changed, if at all, by a [LIMITED]
         decision or not at all *)
      assert (tracks biggest history
                (storedLog (nullish (namespace' !! name) ∅) key)
                (floorSeconds (atFetch clock)) \/
              namespace' = namespace) as Hstate.
      { destruct (rateLimit_cases namespace cache name key rates clock)
          as [(entry & _ & _ & Heq)|[_ Heq]]; rewrite Hcall in Heq.
        - right. congruence.
        - left.
          set (decided := slidingWindow (nullish (namespace !! name) ∅) rates key
                            (floorSeconds (atFetch clock))) in *.
          assert (namespace' = <[name := snd decided]> namespace /\
                  reply (fst decided) (atReply clock) = Some rejection)
            as [-> Hreply] by (split; congruence).
          rewrite lookup_insert_eq. cbn [nullish].
          subst decided. rewrite slidingWindow_decide in *. cbn [fst snd] in *.
          rewrite storedLog_insert.
          pose proof (decide_respectsLimits rates biggest Hb Hle history _ prev
                        (floorSeconds (atFetch clock)) Htracks Hresp Hnow Hne)
            as [Htracks' _].
          remember (fst (decide rates (storedLog (nullish (namespace !! name) ∅) key)
                           (floorSeconds (atFetch clock)))) as retryAt eqn:Hd in *.
          destruct retryAt; [exact Htracks' | discriminate Hreply]. }
      assert (bool_decide (Some rejection = None) = false) as -> by reflexivity.
      destruct Hstate as [Htracks' | ->].
      * edestruct (IH namespace' cache' history _ Htracks' Hresp Hinv' Hsorted)
          as [Hlen Hbound].
        { apply List.Forall_forall. intros c Hc.
          rewrite List.Forall_forall in Hlater. apply Hlater, in_map_iff. eauto. }
        split; [simpl; now rewrite Hlen|].
        intros rate Hrate from. rewrite passedWithin_cons. simpl.
        apply Hbound, Hrate.
      * edestruct (IH namespace cache' history prev Htracks Hresp Hinv' Hsorted Hprev')
          as [Hlen Hbound].
        split; [simpl; now rewrite Hlen|].
        intros rate Hrate from. rewrite passedWithin_cons. simpl.
        apply Hbound, Hrate.
    + destruct (Hpassed eq_refl) as (-> & _ & -> & Hallowed).
      rewrite slidingWindow_decide in *. cbn [fst snd] in *.
      pose proof (decide_respectsLimits rates biggest Hb Hle history _ prev
                    (floorSeconds (atFetch clock)) Htracks Hresp Hnow Hne)
        as [Htracks' Hresp'].
      apply allowed_respond in Hallowed. rewrite Hallowed in Htracks', Hresp'.
      cbn [unshiftNow] in Htracks', Hresp'.
      set (storage' := <[bucketOf key :=
                          snd (decide rates (storedLog (nullish (namespace !! name) ∅) key)
                                 (floorSeconds (atFetch clock)))]>
                        (nullish (namespace !! name) ∅)) in *.
      destruct (IH (<[name := storage']> namespace) cache
                  (floorSeconds (atFetch clock) :: history)
                  (floorSeconds (atFetch clock))) as [Hlen Hbound].
      { rewrite lookup_insert_eq. cbn [nullish]. subst storage'.
        rewrite storedLog_insert. exact Htracks'. }
      { exact Hresp'. }
      { exact Hinv. }
      { exact Hsorted. }
      { apply List.Forall_forall. intros c Hc.
        rewrite List.Forall_forall in Hlater. apply Hlater, in_map_iff. eauto. }
      split; [simpl; now rewrite Hlen|].
      intros rate Hrate from. rewrite passedWithin_cons.
      specialize (Hbound rate Hrate from). rewrite within_cons in Hbound.
      rewrite bool_decide_eq_true_2 by reflexivity.
      cbn [andb]. lia.
Qed.



(** ** The middleware *)

Section Middleware.
Context {R : Type} (clientIp : R -> option string).
Implicit Types (rates : Source R (list Rate)) (key : option (Source R string)).
Implicit Types (namespace : gmap string (gmap string (list Z))).
Implicit Types (cache : gmap Url CacheEntry) (env : gmap string EnvValue).


(** X18.  The middleware fails closed: a request without a
    [CF-Connecting-IP] header, in an environment whose
    [RATE_LIMITER_ALLOW_MISSING_IP] is missing, empty or [false], gets the
    403 response "Missing client ip", whatever the [rates] and [key]
    arguments are or would return, and neither a durable object nor the cache
    is touched. *)
Theorem missing_ip_fails_closed rates key (request : R) env namespace cache
    (clock : Clock) :
  clientIp request = None ->
  truthy (envLookup env "RATE_LIMITER_ALLOW_MISSING_IP") = false ->
  withRateLimiter clientIp rates key request env namespace cache clock
    = Some (Some (mkHttp 403 (Some "Missing client ip"%string) None), namespace, cache).
Proof.
  intros Hip Hflag. unfold withRateLimiter. rewrite Hip, Hflag.
  now rewrite bool_decide_eq_true_2.
Qed.


(** X20.  A [Response] returned by the caller's [key] or [rates] function is
    handed back as it is, with no durable object contacted and no cache entry
    written; the [key] function comes first, so when it returns a [Response]
    the outcome does not depend on [rates]. *)
Theorem caller_response_returned rates key (request : R) env namespace cache
    (clock : Clock) (response : HttpResponse) :
  (clientIp request = None ->
   truthy (envLookup env "RATE_LIMITER_ALLOW_MISSING_IP") = true) ->
  (exists f, key = Some (Computed f) /\ f request env = inr response) \/
  ((forall source, key = Some source -> exists k, resolve source request env = inl k) /\
   resolve rates request env = inr response) ->
  withRateLimiter clientIp rates key request env namespace cache clock
    = Some (Some response, namespace, cache).
Proof.
  intros Hip Hsource. unfold withRateLimiter.
  assert (bool_decide (clientIp request = None)
          && negb (truthy (envLookup env "RATE_LIMITER_ALLOW_MISSING_IP")) = false) as ->.
  { destruct (clientIp request) eqn:E.
    - now rewrite bool_decide_eq_false_2.
    - rewrite (Hip eq_refl). apply andb_false_r. }
  destruct Hsource as [(f & -> & Hf)|[Hkey Hrates]].
  - cbn [resolve]. now rewrite Hf.
  - destruct key as [source|].
    + destruct (Hkey source eq_refl) as [k ->]. now rewrite Hrates.
    + now rewrite Hrates.
Qed.

(** X21.  Clients are kept apart by address: a request that carries the
    client address [ip] leaves the storage of every durable object with
    another name as it was, whatever key and rates it is limited by. *)
Theorem other_addresses_untouched rates key (request : R) env namespace namespace'
    cache cache' (clock : Clock) (ip : string) (result : option HttpResponse) :
  clientIp request = Some ip ->
  withRateLimiter clientIp rates key request env namespace cache clock
    = Some (result, namespace', cache') ->
  forall other, other <> ip -> namespace' !! other = namespace !! other.
Proof.
  intros Hip. unfold withRateLimiter. rewrite Hip.
  rewrite bool_decide_eq_false_2 by discriminate. cbn [andb nullish].
  destruct (match key with
            | Some source =>
                match resolve source request env with
                | inl k => inl (Some k)
                | inr response => inr response
                end
            | None => inl None
            end) as [key_|response]; [|now intros [= _ <- _]].
  destruct (resolve rates request env) as [rates_|response]; [|now intros [= _ <- _]].
  destruct (rateLimit_cases namespace cache ip (nullish key_ ip) rates_ clock)
    as [(entry & _ & _ & ->)|[_ ->]]; intros [= _ <- _] other Hne.
  - reflexivity.
  - now rewrite lookup_insert_ne.
Qed.
End Middleware.

Lemma missing_ip_fails_closed_witness :
  withRateLimiter (fun request : option string => request)
      (Fixed [mkRate 3 10]) None None {[ "RATE_LIMITER_ALLOW_MISSING_IP"%string := EnvString "" ]}
      ∅ (∅ : gmap Url CacheEntry) (instant 5000)
    = Some (Some (mkHttp 403 (Some "Missing client ip"%string) None), ∅, ∅).
Proof.
  apply (missing_ip_fails_closed (fun request : option string => request)); reflexivity.
Defined.


Lemma caller_response_returned_witness :
  withRateLimiter (fun request : option string => request)
      (Computed (fun _ _ => inr (mkHttp 401 (Some "Sign in first"%string) None)))
      (Some (Fixed "login"%string)) (Some "203.0.113.9"%string) ∅
      ∅ (∅ : gmap Url CacheEntry) (instant 5000)
    = Some (Some (mkHttp 401 (Some "Sign in first"%string) None), ∅, ∅).
Proof.
  apply (caller_response_returned (fun request : option string => request)).
  - discriminate.
  - right. split; [|reflexivity].
    intros source [= <-]. now exists "login"%string.
Defined.

Lemma other_addresses_untouched_witness :
  exists result namespace' cache',
    withRateLimiter (fun request : option string => request)
        (Fixed [mkRate 1 10]) (Some (Fixed "login"%string)) (Some "203.0.113.9"%string) ∅
        {[ "198.51.100.7"%string := {[ bucketOf "login" := [4] ]} ]}
        (∅ : gmap Url CacheEntry) (instant 5000)
      = Some (result, namespace', cache') /\
    namespace' !! "198.51.100.7"%string = Some {[ bucketOf "login" := [4] ]} /\
    namespace' !! "203.0.113.9"%string = Some {[ bucketOf "login" := [5] ]}.
Proof.
  assert (withRateLimiter (fun request : option string => request)
            (Fixed [mkRate 1 10]) (Some (Fixed "login"%string))
            (Some "203.0.113.9"%string) ∅
            {[ "198.51.100.7"%string := {[ bucketOf "login" := [4] ]} ]}
            (∅ : gmap Url CacheEntry) (instant 5000)
          = Some (None,
                  <[ "203.0.113.9"%string := {[ bucketOf "login" := [5] ]} ]>
                    {[ "198.51.100.7"%string := {[ bucketOf "login" := [4] ]} ]},
                  ∅)) as Hcall by (vm_compute; reflexivity).
  eexists _, _, _. split; [exact Hcall|].
  split; [|reflexivity].
  rewrite (other_addresses_untouched (fun request : option string => request)
             _ _ _ _ _ _ _ _ _ "203.0.113.9" _ eq_refl Hcall) by discriminate.
  reflexivity.
Defined.

(** ** The example worker *)

Lemma exampleFetch_step (namespace : gmap string (gmap string (list Z)))
    (cache : gmap Url CacheEntry) (clock : Clock) :
  exists limited namespace' cache',
    rateLimit namespace cache "0" "0" [mkRate 3 10] clock
      = Some (limited, namespace', cache') /\
    exampleFetch namespace cache clock
      = Some (match limited with
              | Some rejection => ofRejection rejection
              | None => mkHttp 200 (Some "OK!"%string) None
              end, namespace', cache') /\
    (limited = None \/ exists seconds, limited = Some (mkRejection 429 seconds)).
Proof.
  unfold exampleFetch, rateLimitByKey.
  assert (forall response ms,
            reply response ms = None \/
            exists seconds, reply response ms = Some (mkRejection 429 seconds)) as Hreply.
  { intros response ms. unfold reply. destruct (body response); eauto. }
  destruct (rateLimit_cases namespace cache "0" "0" [mkRate 3 10] clock)
    as [(entry & _ & _ & Hcall)|[_ Hcall]]; rewrite Hcall;
    eexists _, _, _; (split; [reflexivity|]); (split; [reflexivity|]); apply Hreply.
Qed.

Lemma exampleRequests_coordinatorCalls (clocks : list Clock) :
  forall (namespace : gmap string (gmap string (list Z))) (cache : gmap Url CacheEntry),
    map (fun o => (fst o, httpStatus (snd o) =? 200)) (exampleRequests namespace cache clocks)
      = coordinatorCalls namespace cache "0" "0" [mkRate 3 10] clocks /\
    Forall (fun o => snd o = mkHttp 200 (Some "OK!"%string) None \/
                     exists seconds, snd o = mkHttp 429 None (Some seconds))
           (exampleRequests namespace cache clocks).
Proof.
  induction clocks as [|clock later IH]; intros namespace cache.
  - split; [reflexivity | constructor].
  - cbn [exampleRequests coordinatorCalls].
    destruct (exampleFetch_step namespace cache clock)
      as (limited & namespace' & cache' & -> & -> & Hlimited).
    destruct (IH namespace' cache') as [Hmap Hall].
    destruct Hlimited as [->|[seconds ->]]; cbn [map fst snd].
    + split; [now rewrite Hmap|]. constructor; [now left | exact Hall].
    + split; [now rewrite Hmap|]. constructor; [right; now exists seconds | exact Hall].
Qed.

Lemma okWithin_passedWithin (from to : Z) (served : list (Z * HttpResponse)) :
  okWithin from to served
    = passedWithin from to (map (fun o => (fst o, httpStatus (snd o) =? 200)) served).
Proof.
  unfold okWithin, passedWithin. f_equal. f_equal.
  induction served as [|o served IH]; [reflexivity|].
  simpl. destruct ((httpStatus (snd o) =? 200) && (from <=? fst o) && (fst o <=? to));
    simpl; now rewrite IH.
Qed.

(** X22.  The example worker lets at most 3 requests through in any 10
    seconds, all clients together.  Starting with no log under the key ["0"]
    and a cache that holds only rejections, for requests whose
    durable-object clock readings do not decrease: every request gets either
    the 200 response "OK!" or a 429 response with a [Retry-After] header, and
    in every closed window of 10 seconds at most 3 requests get the 200. *)
Theorem example_worker_limit (namespace : gmap string (gmap string (list Z)))
    (cache : gmap Url CacheEntry) (clocks : list Clock) (from : Z) :
  nullish (namespace !! "0"%string) ∅ !! bucketOf "0" = None ->
  onlyLimited cache ->
  nonDecreasing (map (fun clock => floorSeconds (atFetch clock)) clocks) ->
  length (exampleRequests namespace cache clocks) = length clocks /\
  Forall (fun o => snd o = mkHttp 200 (Some "OK!"%string) None \/
                   exists seconds, snd o = mkHttp 429 None (Some seconds))
         (exampleRequests namespace cache clocks) /\
  okWithin from (from + 10) (exampleRequests namespace cache clocks) <= 3.
Proof.
  intros Hfresh Hinv Hsorted.
  destruct (exampleRequests_coordinatorCalls clocks namespace cache) as [Hmap Hall].
  assert (length (coordinatorCalls namespace cache "0" "0" [mkRate 3 10] clocks)
            = length clocks /\
          passedWithin from (from + 10)
            (coordinatorCalls namespace cache "0" "0" [mkRate 3 10] clocks) <= 3)
    as [Hlen Hbound].
  { destruct clocks as [|first later].
    { split; [reflexivity|]. unfold passedWithin. simpl. lia. }
    destruct (coordinatorCalls_respectLimits [mkRate 3 10] 10 "0" "0" (first :: later)
                eq_refl) with (namespace := namespace) (cache := cache)
                              (history := @nil Z) (prev := floorSeconds (atFetch first))
      as [Hlen Hbound].
    - intros rate [<-|[]]. simpl. lia.
    - discriminate.
    - unfold storedLog. rewrite Hfresh. split; [constructor|]. split; [constructor|].
      exists []. split; [reflexivity | constructor].
    - intros r [<-|[]] f. unfold within. simpl. lia.
    - assumption.
    - assumption.
    - constructor; [lia|]. cbn [map] in Hsorted. apply StronglySorted_inv in Hsorted.
      destruct Hsorted as [_ Hlater]. rewrite List.Forall_forall in Hlater.
      apply List.Forall_forall. intros c Hc. apply Hlater, in_map_iff. eauto.
    - split; [assumption|].
      specialize (Hbound (mkRate 3 10) (or_introl eq_refl) from).
      change (within from (from + interval (mkRate 3 10)) []) with 0 in Hbound.
      cbn [interval limit] in Hbound. lia. }
  split; [|split; [assumption|]].
  - rewrite <- Hlen, <- Hmap. now rewrite length_map.
  - now rewrite okWithin_passedWithin, Hmap.
Qed.

Lemma example_worker_limit_witness :
  map (fun o => httpStatus (snd o))
      (exampleRequests ∅ ∅ (map instant [1000; 1200; 1900; 2500; 9000; 11999; 12000]))
    = [200; 200; 200; 429; 429; 429; 200] /\
  okWithin 1 (1 + 10)
    (exampleRequests ∅ ∅ (map instant [1000; 1200; 1900; 2500; 9000; 11999; 12000])) <= 3.
Proof.
  split; [vm_compute; reflexivity|].
  apply (example_worker_limit ∅ ∅
           (map instant [1000; 1200; 1900; 2500; 9000; 11999; 12000]) 1).
  - reflexivity.
  - apply onlyLimited_empty.
  - vm_compute. repeat constructor; discriminate.
Defined.
